(** * Nearest-neighbour and branch-and-bound TSP solvers of [TSP.py]

    A shallow embedding of [tsp_greedy] and [tsp_branch_and_bound] together
    with the Python list primitives they rely on, followed by the properties
    of the two solvers: tour validity, the round trip between the reported
    distance and the returned path, optimality of the exact search, soundness
    of its pruning test, the state restored by backtracking, termination, and
    the behaviour on start indices outside [0, n). *)

From stdpp Require Import base tactics option list list_numbers sorting strings.
From Stdlib Require Import ZArith Lia.

#[local] Open Scope Z_scope.

(** ** Python values and exceptions *)

(** The exceptions the two solvers can raise: [IndexError] from a subscript
    out of range, [ValueError] from [min] of an empty sequence. *)
Inductive exn : Type :=
  | IndexError
  | ValueError.

(** Outcome of running a piece of the program: a value, a raised exception,
    or exhaustion of the recursion budget of the model. *)
Inductive res (A : Type) : Type :=
  | Ok (a : A)
  | Raise (e : exn)
  | OutOfFuel.

Arguments Ok {A} a.
Arguments Raise {A} e.
Arguments OutOfFuel {A}.

Definition res_bind {A B : Type} (r : res A) (k : A → res B) : res B :=
  match r with
  | Ok a => k a
  | Raise e => Raise e
  | OutOfFuel => OutOfFuel
  end.

Notation "'do' x <~ e ;; k" := (res_bind e (λ x, k))
  (at level 10, x name, e at level 99, k at level 200,
   format "'[v' 'do'  x  <~  e  ;; '/' k ']'").

(** A distance matrix is a list of rows; distances are Python integers. *)
Abbreviation matrix := (list (list Z)).

(** [len(l)]. *)
Definition py_len {A : Type} (l : list A) : Z := Z.of_nat (length l).

(** Position designated by subscript [i] in a sequence of length [len]:
    Python counts a negative subscript from the end and rejects anything
    outside [-len, len). *)
Definition py_index (len i : Z) : option nat :=
  if bool_decide (0 ≤ i < len) then Some (Z.to_nat i)
  else if bool_decide (- len ≤ i < 0) then Some (Z.to_nat (i + len))
  else None.

(** [l[i]]. *)
Definition getitem {A : Type} (l : list A) (i : Z) : res A :=
  match py_index (py_len l) i with
  | Some k =>
      match l !! k with
      | Some x => Ok x
      | None => Raise IndexError
      end
  | None => Raise IndexError
  end.

(** [l[i] = x]. *)
Definition setitem {A : Type} (l : list A) (i : Z) (x : A) : res (list A) :=
  match py_index (py_len l) i with
  | Some k => Ok (<[k:=x]> l)
  | None => Raise IndexError
  end.

(** [l.pop()]: the list without its last element. *)
Definition pop {A : Type} (l : list A) : res (list A) :=
  match l with
  | [] => Raise IndexError
  | _ => Ok (removelast l)
  end.

(** [range(n)]; empty when [n <= 0]. *)
Definition range (n : Z) : list Z := seqZ 0 n.

(** [for i in l: body], threading the variables the body assigns. *)
Fixpoint for_in {S : Type} (l : list Z) (body : Z → S → res S) (s : S) : res S :=
  match l with
  | [] => Ok s
  | i :: l' => do s' <~ body i s ;; for_in l' body s'
  end.

(** [distance_matrix[i][j]]. *)
Definition lookup2 (m : matrix) (i j : Z) : res Z :=
  do row <~ getitem m i ;;
  getitem row j.

(** ** [tsp_greedy] *)

(** Local variables of [tsp_greedy] that its loop assigns. *)
Record greedy_state : Type := GreedyState {
  g_path : list Z;
  g_visited : list bool;
  g_total : Z;
  g_current : Z
}.

(** [[(distance_matrix[current][j], j) for j in js if not visited[j]]]. *)
Fixpoint candidates (m : matrix) (visited : list bool) (current : Z)
    (js : list Z) : res (list (Z * Z)) :=
  match js with
  | [] => Ok []
  | j :: js' =>
      do v <~ getitem visited j ;;
      if negb v then
        do d <~ lookup2 m current j ;;
        do rest <~ candidates m visited current js' ;;
        Ok ((d, j) :: rest)
      else candidates m visited current js'
  end.

(** The scan of [min(..., key=lambda x: x[0])]: a later element replaces the
    current answer only when its key is strictly smaller. *)
Fixpoint min_scan (best : Z * Z) (l : list (Z * Z)) : Z * Z :=
  match l with
  | [] => best
  | x :: l' => min_scan (if x.1 <? best.1 then x else best) l'
  end.

(** [min(l, key=lambda x: x[0])]. *)
Definition py_min (l : list (Z * Z)) : res (Z * Z) :=
  match l with
  | [] => Raise ValueError
  | x :: l' => Ok (min_scan x l')
  end.

(** Body of the [for _ in range(n - 1)] loop. *)
Definition greedy_step (m : matrix) (n : Z) (st : greedy_state) : res greedy_state :=
  do cands <~ candidates m (g_visited st) (g_current st) (range n) ;;
  do best <~ py_min cands ;;
  let next_city := best.2 in
  let path := g_path st ++ [next_city] in
  do d <~ lookup2 m (g_current st) next_city ;;
  do visited <~ setitem (g_visited st) next_city true ;;
  Ok (GreedyState path visited (g_total st + d) next_city).

Definition tsp_greedy (m : matrix) (start : Z) : res (list Z * Z) :=
  let n := py_len m in
  let visited := replicate (length m) false in
  let path := [start] in
  do visited <~ setitem visited start true ;;
  do st <~ for_in (range (n - 1)) (λ _, greedy_step m n)
          (GreedyState path visited 0 start) ;;
  do d <~ lookup2 m (g_current st) start ;;
  Ok (g_path st ++ [start], g_total st + d).

(** ** [tsp_branch_and_bound] *)

(** Value of [best_distance]: [math.inf] or the length of a tour. *)
Inductive distance : Type :=
  | Inf
  | Fin (d : Z).

(** [x < best] for an integer [x]. *)
Definition lt_distance (x : Z) (best : distance) : bool :=
  match best with
  | Inf => true
  | Fin y => x <? y
  end.

(** The two lists [backtrack] mutates in place and the two variables of the
    enclosing function it assigns. *)
Record search_state : Type := SearchState {
  path : list Z;
  visited : list bool;
  best_distance : distance;
  best_path : list Z
}.

(** The test guarding the descent into a child. *)
Definition pruning_test (projected_distance : Z) (best : distance) : bool :=
  lt_distance projected_distance best.

(** No test at all: every child is explored. *)
Definition no_test (projected_distance : Z) (best : distance) : bool := true.

(** [backtrack(path, visited, current_distance)], with the test guarding the
    descent as a parameter.  [fuel] bounds the depth of the recursion. *)
Fixpoint backtrack_with (test : Z → distance → bool) (m : matrix) (n start : Z)
    (fuel : nat) (current_distance : Z) (s : search_state) : res search_state :=
  match fuel with
  | O => OutOfFuel
  | S fuel' =>
      do current_city <~ getitem (path s) (-1) ;;
      if py_len (path s) =? n then
        do d <~ lookup2 m current_city start ;;
        let total_distance := current_distance + d in
        if lt_distance total_distance (best_distance s) then
          Ok (SearchState (path s) (visited s) (Fin total_distance) (path s))
        else Ok s
      else
        for_in (range n) (λ next_city s,
          do v <~ getitem (visited s) next_city ;;
          if negb v then
            do d <~ lookup2 m current_city next_city ;;
            let projected_distance := current_distance + d in
            if test projected_distance (best_distance s) then
              do visited1 <~ setitem (visited s) next_city true ;;
              let path1 := path s ++ [next_city] in
              do s' <~ backtrack_with test m n start fuel' projected_distance
                      (SearchState path1 visited1 (best_distance s) (best_path s)) ;;
              do path2 <~ pop (path s') ;;
              do visited2 <~ setitem (visited s') next_city false ;;
              Ok (SearchState path2 visited2 (best_distance s') (best_path s'))
            else Ok s
          else Ok s) s
  end.

(** The search of the source: a child is entered only when its projected
    distance is below the best complete tour found so far. *)
Definition backtrack : matrix → Z → Z → nat → Z → search_state → res search_state :=
  backtrack_with pruning_test.

(** The same depth-first search with the pruning test removed. *)
Definition backtrack_exhaustive : matrix → Z → Z → nat → Z → search_state → res search_state :=
  backtrack_with no_test.

(** Body of [tsp_branch_and_bound], with the test of [backtrack] and the
    budget of the recursion as parameters. *)
Definition solve_with (test : Z → distance → bool) (fuel : nat)
    (m : matrix) (start : Z) : res (list Z * distance) :=
  let n := py_len m in
  let visited := replicate (length m) false in
  do visited <~ setitem visited start true ;;
  do s <~ backtrack_with test m n start fuel 0 (SearchState [start] visited Inf []) ;;
  Ok (best_path s ++ [start], best_distance s).

(** The recursion is at most [n] calls deep, so a budget of [n] nested calls
    runs the search to completion on every input (see [solve_with_total]
    below). *)
Definition tsp_branch_and_bound (m : matrix) (start : Z) : res (list Z * distance) :=
  solve_with pruning_test (length m) m start.

(** Full enumeration: [tsp_branch_and_bound] without its pruning test. *)
Definition tsp_exhaustive (m : matrix) (start : Z) : res (list Z * distance) :=
  solve_with no_test (length m) m start.

(** ** The calls of [backtrack] *)

#[local] Set Warnings "-register-all".

(** A call of [backtrack]: the path and the visited flags it receives, the
    calls it makes in turn, in order, and the path and the visited flags as
    it leaves them on return. *)
Inductive call_tree : Type :=
  | Call (p : list Z) (vis : list bool) (children : list call_tree)
      (p_exit : list Z) (vis_exit : list bool).

Definition call_path (t : call_tree) : list Z :=
  match t with Call p _ _ _ _ => p end.

Definition call_visited (t : call_tree) : list bool :=
  match t with Call _ vis _ _ _ => vis end.

Definition call_children (t : call_tree) : list call_tree :=
  match t with Call _ _ children _ _ => children end.

Definition call_exit_path (t : call_tree) : list Z :=
  match t with Call _ _ _ p_exit _ => p_exit end.

Definition call_exit_visited (t : call_tree) : list bool :=
  match t with Call _ _ _ _ vis_exit => vis_exit end.

(** A call together with all the calls below it. *)
Fixpoint all_calls (t : call_tree) : list call_tree :=
  match t with
  | Call _ _ children _ _ =>
      t :: foldr (λ c acc, all_calls c ++ acc) [] children
  end.

(** Number of nested calls. *)
Fixpoint call_depth (t : call_tree) : nat :=
  match t with
  | Call _ _ children _ _ =>
      S (foldr (λ c d, Nat.max (call_depth c) d) 0%nat children)
  end.

(** [backtrack] again, returning next to the state it leaves the record of
    the calls made; the record does not influence the search. *)
Fixpoint backtrack_calls (m : matrix) (n start : Z) (fuel : nat)
    (current_distance : Z) (s : search_state) : res (search_state * call_tree) :=
  match fuel with
  | O => OutOfFuel
  | S fuel' =>
      do current_city <~ getitem (path s) (-1) ;;
      if py_len (path s) =? n then
        do d <~ lookup2 m current_city start ;;
        let total_distance := current_distance + d in
        if lt_distance total_distance (best_distance s) then
          Ok (SearchState (path s) (visited s) (Fin total_distance) (path s),
              Call (path s) (visited s) [] (path s) (visited s))
        else Ok (s, Call (path s) (visited s) [] (path s) (visited s))
      else
        do r <~ for_in (range n) (λ next_city r,
          do v <~ getitem (visited r.1) next_city ;;
          if negb v then
            do d <~ lookup2 m current_city next_city ;;
            let projected_distance := current_distance + d in
            if pruning_test projected_distance (best_distance r.1) then
              do visited1 <~ setitem (visited r.1) next_city true ;;
              let path1 := path r.1 ++ [next_city] in
              do r' <~ backtrack_calls m n start fuel' projected_distance
                         (SearchState path1 visited1 (best_distance r.1) (best_path r.1)) ;;
              do path2 <~ pop (path r'.1) ;;
              do visited2 <~ setitem (visited r'.1) next_city false ;;
              Ok (SearchState path2 visited2 (best_distance r'.1) (best_path r'.1),
                  r.2 ++ [r'.2])
            else Ok r
          else Ok r) (s, []) ;;
        Ok (r.1, Call (path s) (visited s) r.2 (path r.1) (visited r.1))
  end.

(** ** The dataset of the script *)

Definition distance_matrix : matrix :=
  [ [0;5;4;10;3;12;15;18;14;11];
    [5;0;3;8;2;9;14;17;13;10];
    [4;3;0;7;2;11;13;16;12;9];
    [10;8;7;0;6;14;10;15;17;12];
    [3;2;2;6;0;10;13;16;12;9];
    [12;9;11;14;10;0;8;12;7;6];
    [15;14;13;10;13;8;0;14;9;5];
    [18;17;16;15;16;12;14;0;11;15];
    [14;13;12;17;12;7;9;11;0;8];
    [11;10;9;12;9;6;5;15;8;0] ].

Definition four_cities : matrix :=
  [ [0;10;15;20]; [10;0;35;25]; [15;35;0;30]; [20;25;30;0] ].

(** ** Specification vocabulary *)

(** Position a valid subscript designates in a sequence of length [n]. *)
Definition norm (n i : Z) : Z := if bool_decide (i < 0) then i + n else i.

(** Every row is as long as the matrix. *)
Definition square (m : matrix) : Prop :=
  Forall (λ row : list Z, length row = length m) m.

(** No entry is negative. *)
Definition nonneg (m : matrix) : Prop :=
  Forall (Forall (λ d : Z, 0 ≤ d)) m.

(** Length of the edge from [a] to [b]; [0] where the matrix has no entry. *)
Definition edge (m : matrix) (a b : Z) : Z :=
  match lookup2 m a b with
  | Ok d => d
  | _ => 0
  end.

(** Sum of the edges between consecutive entries of [p]. *)
Fixpoint path_length (m : matrix) (p : list Z) : Z :=
  match p with
  | a :: p' =>
      match p' with
      | b :: _ => edge m a b + path_length m p'
      | [] => 0
      end
  | [] => 0
  end.

(** Length of the way from [cur] through [q] and on to [start]. *)
Fixpoint closing_cost (m : matrix) (cur : Z) (q : list Z) (start : Z) : Z :=
  match q with
  | [] => edge m cur start
  | c :: q' => edge m cur c + closing_cost m c q' start
  end.

(** The literal recomputation: the sum of
    [distance_matrix[path[k]][path[k+1]]] for [k] in [range(n)]. *)
Definition recompute (m : matrix) (p : list Z) : res Z :=
  for_in (range (py_len m)) (λ k acc,
    do a <~ getitem p k ;;
    do b <~ getitem p (k + 1) ;;
    do d <~ lookup2 m a b ;;
    Ok (acc + d)) 0.

(** Locations of [range(n)] not yet marked in [vis]. *)
Definition unvisited (n : Z) (vis : list bool) : list Z :=
  filter (λ j, vis !! Z.to_nat j = Some false) (range n).

(** [vis] has one flag per location, and the locations of [p] together with
    the unmarked ones are exactly [0, ..., n-1], each once. *)
Definition consistent (n : Z) (p : list Z) (vis : list bool) : Prop :=
  py_len vis = n ∧ (norm n <$> p) ++ unvisited n vis ≡ₚ range n.

(** [vis] has one flag per location and marks exactly the locations in
    [p]. *)
Definition marks (n : Z) (p : list Z) (vis : list bool) : Prop :=
  py_len vis = n ∧
  ∀ j, j ∈ p ↔ 0 ≤ j < n ∧ vis !! Z.to_nat j = Some true.

(** Order on best distances, [math.inf] on top. *)
Definition dle (a b : distance) : Prop :=
  match a, b with
  | _, Inf => True
  | Inf, Fin _ => False
  | Fin x, Fin y => x ≤ y
  end.

(** A test may refuse a child only when the projected distance is not below
    the best known one, and then only over a matrix without negative
    entries. *)
Definition sound_test (m : matrix) (test : Z → distance → bool) : Prop :=
  ∀ x best, test x best = false → lt_distance x best = false ∧ nonneg m.

(** What scanning the children [l] of the node [s], reached at distance
    [cd] with current city [cur], leaves in [s']. *)
Record scanned (test : Z → distance → bool) (m : matrix) (n start : Z)
    (l : list Z) (cd cur : Z) (s s' : search_state) : Prop := {
  scanned_path : path s' = path s;
  scanned_visited : visited s' = visited s;
  scanned_le : dle (best_distance s') (best_distance s);
  scanned_best :
    (best_distance s' = best_distance s ∧ best_path s' = best_path s) ∨
    ∃ q, q ≡ₚ unvisited n (visited s) ∧
         best_distance s' = Fin (cd + closing_cost m cur q start) ∧
         best_path s' = path s ++ q;
  scanned_finite :
    best_distance s ≠ Inf ∨ (∃ c, c ∈ l ∧ c ∈ unvisited n (visited s)) →
    best_distance s' ≠ Inf;
  scanned_bound :
    sound_test m test →
    ∀ c q, c ∈ l → c :: q ≡ₚ unvisited n (visited s) →
    dle (best_distance s') (Fin (cd + closing_cost m cur (c :: q) start))
}.

(** What a call of [backtrack] on [s] leaves in [s']. *)
Record searched (test : Z → distance → bool) (m : matrix) (n start : Z)
    (cd cur : Z) (s s' : search_state) : Prop := {
  searched_path : path s' = path s;
  searched_visited : visited s' = visited s;
  searched_le : dle (best_distance s') (best_distance s);
  searched_best :
    (best_distance s' = best_distance s ∧ best_path s' = best_path s) ∨
    ∃ q, q ≡ₚ unvisited n (visited s) ∧
         best_distance s' = Fin (cd + closing_cost m cur q start) ∧
         best_path s' = path s ++ q;
  searched_finite : best_distance s' ≠ Inf;
  searched_bound :
    sound_test m test →
    ∀ q, q ≡ₚ unvisited n (visited s) →
    dle (best_distance s') (Fin (cd + closing_cost m cur q start))
}.

(** The spec's selection rule: [j] is unvisited, no unvisited location is
    nearer to [cur], and no unvisited location at the same distance has a
    lower index. *)
Definition nearest_unvisited (m : matrix) (n : Z) (vis : list bool)
    (cur j : Z) : Prop :=
  (0 ≤ j < n ∧ vis !! Z.to_nat j = Some false) ∧
  ∀ k, 0 ≤ k < n → vis !! Z.to_nat k = Some false →
       edge m cur j ≤ edge m cur k ∧ (edge m cur k = edge m cur j → j ≤ k).

(** The state after location [j] is chosen: [j] is appended to the path, its
    edge is added to the running total, it is marked visited and becomes
    the current location. *)
Definition select (m : matrix) (st : greedy_state) (j : Z) : greedy_state :=
  GreedyState (g_path st ++ [j]) (<[Z.to_nat j := true]> (g_visited st))
    (g_total st + edge m (g_current st) j) j.

(** [k] selection steps by the spec's rule lead from one state to another. *)
Inductive selections (m : matrix) (n : Z) :
    nat → greedy_state → greedy_state → Prop :=
  | selections_O st : selections m n 0 st st
  | selections_S k st j st' :
      nearest_unvisited m n (g_visited st) (g_current st) j →
      selections m n k (select m st j) st' →
      selections m n (S k) st st'.

(** What holds of the variables of [tsp_greedy] between two selection steps. *)
Record greedy_inv (m : matrix) (n start : Z) (st : greedy_state) : Prop := {
  gi_consistent : consistent n (g_path st) (g_visited st);
  gi_last : last (g_path st) = Some (g_current st);
  gi_total : g_total st = path_length m (g_path st);
  gi_path : ∃ q, g_path st = start :: q ∧ Forall (λ j, 0 ≤ j) q
}.

(** The state of [tsp_greedy] when its loop is entered. *)
Definition greedy_init (m : matrix) (start : Z) : greedy_state :=
  GreedyState [start]
    (<[Z.to_nat (norm (py_len m) start) := true]> (replicate (length m) false))
    0 start.

(** What holds of every call of the search over [n] locations: the flags
    mark exactly the locations of the path, the call leaves the path and the
    flags as it received them, the path has at most [n] entries, at most [n]
    calls are made from it, and each of them receives the path extended by
    one location, marked in its flags. *)
Definition call_ok (n : Z) (t : call_tree) : Prop :=
  marks n (call_path t) (call_visited t) ∧
  (call_exit_path t = call_path t ∧ call_exit_visited t = call_visited t) ∧
  (length (call_path t) ≤ Z.to_nat n)%nat ∧
  (length (call_children t) ≤ Z.to_nat n)%nat ∧
  Forall (λ c, ∃ x, call_path c = call_path t ++ [x] ∧
                    call_visited c = <[Z.to_nat x := true]> (call_visited t))
    (call_children t).

(** The state of [tsp_branch_and_bound] when it calls [backtrack]. *)
Definition search_init (m : matrix) (start : Z) : search_state :=
  SearchState [start]
    (<[Z.to_nat (norm (py_len m) start) := true]> (replicate (length m) false))
    Inf [].

(** The locations other than [start]. *)
Definition others (n start : Z) : list Z :=
  filter (λ j, j ≠ start) (range n).

(** [p] has [n + 1] entries, starts and ends at [start], and its first [n]
    entries are the locations [0, ..., n-1], each exactly once. *)
Definition tour_valid (n : nat) (start : Z) (p : list Z) : Prop :=
  length p = S n ∧ head p = Some start ∧ last p = Some start ∧
  take n p ≡ₚ range (Z.of_nat n).

(** ** The text report and the drawing *)

(** The labels of the script. *)
Definition locations : list string :=
  [ "Gachibowli"; "Madhapur"; "Kondapur"; "Kukatpally"; "Hitech City";
    "Banjara Hills"; "Secunderabad"; "LB Nagar"; "Charminar"; "Begumpet" ]%string.

(** [[locations[i] for i in path]]. *)
Fixpoint route_labels (locations : list string) (path : list Z) : res (list string) :=
  match path with
  | [] => Ok []
  | i :: path' =>
      do label <~ getitem locations i ;;
      do labels <~ route_labels locations path' ;;
      Ok (label :: labels)
  end.

(** [" -> ".join([locations[i] for i in path])], the route line that the
    main block prints. *)
Definition route_text (locations : list string) (path : list Z) : res string :=
  do labels <~ route_labels locations path ;;
  Ok (String.concat " -> " labels).

(** The loop of [visualize_path]: the pairs of labels handed to
    [G.add_edge], in the order of the calls.  The graph object and the
    plotting belong to the libraries and are not modelled. *)
Definition path_edges (locations : list string) (path : list Z) :
    res (list (string * string)) :=
  for_in (range (py_len path - 1)) (λ i edges,
    do a <~ getitem path i ;;
    do u <~ getitem locations a ;;
    do b <~ getitem path (i + 1) ;;
    do v <~ getitem locations b ;;
    Ok (edges ++ [(u, v)])) [].

(** ** Further vocabulary *)

(** The label subscript [i] designates in [locations]; empty where there is
    none. *)
Definition label_of (locations : list string) (i : Z) : string :=
  default ""%string (locations !! Z.to_nat (norm (py_len locations) i)).

(** Lexicographic order on routes. *)
Fixpoint lex_le (a b : list Z) : Prop :=
  match a, b with
  | [], _ => True
  | _ :: _, [] => False
  | x :: a', y :: b' => x < y ∨ (x = y ∧ lex_le a' b')
  end.

(** What scanning the children [l] leaves as best path: either nothing
    changed, or the best path is the first, in lexicographic order, of the
    completions through [l] of its length, and it is strictly shorter than
    what was known before. *)
Definition first_scanned (m : matrix) (n start : Z) (l : list Z) (cd cur : Z)
    (s s' : search_state) : Prop :=
  (best_distance s' = best_distance s ∧ best_path s' = best_path s) ∨
  ∃ c q,
    c ∈ l ∧ c :: q ≡ₚ unvisited n (visited s) ∧
    best_distance s' = Fin (cd + closing_cost m cur (c :: q) start) ∧
    best_path s' = path s ++ c :: q ∧
    lt_distance (cd + closing_cost m cur (c :: q) start) (best_distance s) = true ∧
    ∀ c' q', c' ∈ l → c' :: q' ≡ₚ unvisited n (visited s) →
             closing_cost m cur (c' :: q') start = closing_cost m cur (c :: q) start →
             lex_le (c :: q) (c' :: q').

(** The same for a whole call of [backtrack]. *)
Definition first_found (m : matrix) (n start : Z) (cd cur : Z)
    (s s' : search_state) : Prop :=
  (best_distance s' = best_distance s ∧ best_path s' = best_path s) ∨
  ∃ q,
    q ≡ₚ unvisited n (visited s) ∧
    best_distance s' = Fin (cd + closing_cost m cur q start) ∧
    best_path s' = path s ++ q ∧
    lt_distance (cd + closing_cost m cur q start) (best_distance s) = true ∧
    ∀ q', q' ≡ₚ unvisited n (visited s) →
          closing_cost m cur q' start = closing_cost m cur q start →
          lex_le q q'.

(** A run that returns a value or raises [IndexError], and nothing else. *)
Definition index_error_only {A : Type} (r : res A) : Prop :=
  match r with
  | Ok _ | Raise IndexError => True
  | Raise ValueError | OutOfFuel => False
  end.

(** Bound on the number of calls of a search that has [u] locations left to
    visit: the call itself and, for each of the [u] locations, at most the
    calls of a search with [u - 1] locations left. *)
Fixpoint search_nodes (u : nat) : nat :=
  match u with
  | O => 1
  | S u' => 1 + u * search_nodes u'
  end.

(** The calls recorded below a list of calls. *)
Definition calls_below (children : list call_tree) : list call_tree :=
  foldr (λ c acc, all_calls c ++ acc) [] children.

(** ** Python primitives *)

Section primitives.
Context {A : Type}.
Implicit Types (l : list A) (i : Z).

Lemma py_index_Some len i k :
  py_index len i = Some k ↔
  - len ≤ i < len ∧ k = Z.to_nat (norm len i).
Proof.
  unfold py_index, norm.
  repeat case_bool_decide; (split; [intros ?; simplify_eq | intros [? ->]]);
    try (split; [lia | done]); try done; lia.
Qed.

Lemma py_index_None len i :
  py_index len i = None ↔ ¬ (- len ≤ i < len).
Proof. unfold py_index. repeat case_bool_decide; split; intros ?; try done; lia. Qed.

Lemma norm_range n i : - n ≤ i < n → 0 ≤ norm n i < n.
Proof. unfold norm. case_bool_decide; lia. Qed.

Lemma norm_id n i : 0 ≤ i → norm n i = i.
Proof. unfold norm. case_bool_decide; lia. Qed.

Lemma getitem_Ok l i x :
  getitem l i = Ok x ↔
  - py_len l ≤ i < py_len l ∧ l !! Z.to_nat (norm (py_len l) i) = Some x.
Proof.
  unfold getitem. destruct (py_index _ _) as [k|] eqn:Hk.
  - apply py_index_Some in Hk as [Hi ->].
    destruct (l !! _) eqn:Hl; split; intros H; simplify_eq; try done.
    + by destruct H as [_ [= ->]].
    + by destruct H.
  - apply py_index_None in Hk. split; [done | tauto].
Qed.

Lemma getitem_valid l i :
  - py_len l ≤ i < py_len l → ∃ x, getitem l i = Ok x.
Proof.
  intros Hi. destruct (lookup_lt_is_Some_2 l (Z.to_nat (norm (py_len l) i))) as [x Hx].
  { unfold py_len in *. pose proof (norm_range _ _ Hi). unfold py_len in *. lia. }
  exists x. by apply getitem_Ok.
Qed.

Lemma getitem_nonneg l i x :
  0 ≤ i → l !! Z.to_nat i = Some x → getitem l i = Ok x.
Proof.
  intros Hi Hx. apply getitem_Ok. rewrite norm_id by done. split; [|done].
  apply lookup_lt_Some in Hx. unfold py_len. lia.
Qed.

Lemma getitem_last l x : last l = Some x → getitem l (-1) = Ok x.
Proof.
  intros Hl. apply getitem_Ok. rewrite last_lookup in Hl.
  assert (length l ≠ 0%nat) by (intros E; rewrite E in Hl; by destruct l).
  unfold py_len, norm. case_bool_decide; [|lia]. split; [lia|].
  by replace (Z.to_nat (-1 + Z.of_nat (length l))) with (pred (length l)) by lia.
Qed.

Lemma setitem_Ok l i x l' :
  setitem l i x = Ok l' ↔
  - py_len l ≤ i < py_len l ∧ l' = <[Z.to_nat (norm (py_len l) i) := x]> l.
Proof.
  unfold setitem. destruct (py_index _ _) as [k|] eqn:Hk.
  - apply py_index_Some in Hk as [Hi ->]. split; intros H; simplify_eq; [done|].
    by destruct H as [_ ->].
  - apply py_index_None in Hk. split; [done | tauto].
Qed.

Lemma setitem_nonneg l i x :
  0 ≤ i < py_len l → setitem l i x = Ok (<[Z.to_nat i := x]> l).
Proof. intros Hi. apply setitem_Ok. rewrite norm_id by lia. split; [lia | done]. Qed.

Lemma setitem_invalid l i x :
  ¬ (- py_len l ≤ i < py_len l) → setitem l i x = Raise IndexError.
Proof. intros Hi. unfold setitem. by apply py_index_None in Hi as ->. Qed.

Lemma pop_snoc l x : pop (l ++ [x]) = Ok l.
Proof.
  unfold pop. rewrite removelast_last. by destruct l.
Qed.

Lemma py_len_insert l k x : py_len (<[k:=x]> l) = py_len l.
Proof. unfold py_len. by rewrite length_insert. Qed.
End primitives.

Lemma for_in_app {S : Type} (l1 l2 : list Z) (body : Z → S → res S) (s : S) :
  for_in (l1 ++ l2) body s = (do s' <~ for_in l1 body s ;; for_in l2 body s').
Proof.
  revert s. induction l1 as [|i l1 IH]; intros s; simpl; [done|].
  destruct (body i s); simpl; auto.
Qed.

Lemma range_length n : 0 ≤ n → length (range n) = Z.to_nat n.
Proof. intros. unfold range. by rewrite length_seqZ. Qed.

Lemma elem_of_range n j : j ∈ range n ↔ 0 ≤ j < n.
Proof. unfold range. rewrite elem_of_seqZ. lia. Qed.

Lemma NoDup_range n : NoDup (range n).
Proof. apply NoDup_seqZ. Qed.

(** ** Distances along paths *)

Lemma square_row (m : matrix) (a : Z) (row : list Z) :
  square m → getitem m a = Ok row → py_len row = py_len m.
Proof.
  intros Hsq [_ Hrow]%getitem_Ok. unfold py_len. f_equal.
  apply list_elem_of_lookup_2 in Hrow.
  by apply (proj1 (Forall_forall _ _) Hsq).
Qed.

Lemma lookup2_edge (m : matrix) (a b : Z) :
  square m →
  - py_len m ≤ a < py_len m → - py_len m ≤ b < py_len m →
  lookup2 m a b = Ok (edge m a b).
Proof.
  intros Hsq Ha Hb. unfold edge, lookup2.
  destruct (getitem_valid m a Ha) as [row Hrow]. rewrite Hrow. simpl.
  pose proof (square_row _ _ _ Hsq Hrow) as Hlen.
  destruct (getitem_valid row b) as [d Hd]; [lia|]. by rewrite Hd.
Qed.

Lemma edge_nonneg (m : matrix) (a b : Z) : nonneg m → 0 ≤ edge m a b.
Proof.
  intros Hnn. unfold edge, lookup2.
  destruct (getitem m a) as [row| |] eqn:Hrow; simpl; try lia.
  destruct (getitem row b) as [d| |] eqn:Hd; try lia.
  apply getitem_Ok in Hrow as [_ Hrow]. apply getitem_Ok in Hd as [_ Hd].
  apply list_elem_of_lookup_2 in Hrow. apply list_elem_of_lookup_2 in Hd.
  pose proof (proj1 (Forall_forall _ _) Hnn _ Hrow) as Hr.
  by apply (proj1 (Forall_forall _ _) Hr).
Qed.

Lemma closing_cost_nonneg (m : matrix) (cur : Z) (q : list Z) (start : Z) :
  nonneg m → 0 ≤ closing_cost m cur q start.
Proof.
  intros Hnn. revert cur. induction q as [|c q IH]; intros cur; simpl.
  - by apply edge_nonneg.
  - pose proof (edge_nonneg m cur c Hnn). specialize (IH c). lia.
Qed.

Lemma path_length_snoc (m : matrix) (p : list Z) (a c : Z) :
  last p = Some a → path_length m (p ++ [c]) = path_length m p + edge m a c.
Proof.
  induction p as [|x [|y p] IH]; intros Hl.
  - done.
  - simpl in *. simplify_eq. lia.
  - change (path_length m ((x :: y :: p) ++ [c]))
      with (edge m x y + path_length m ((y :: p) ++ [c])).
    rewrite IH by done. simpl. lia.
Qed.

Lemma path_length_closing (m : matrix) (p q : list Z) (a b : Z) :
  last p = Some a →
  path_length m (p ++ q ++ [b]) = path_length m p + closing_cost m a q b.
Proof.
  revert p a. induction q as [|c q IH]; intros p a Hl; simpl.
  - by apply path_length_snoc.
  - replace (p ++ c :: q ++ [b]) with ((p ++ [c]) ++ q ++ [b])
      by (by rewrite <- app_assoc).
    rewrite (IH (p ++ [c]) c) by apply last_snoc.
    rewrite (path_length_snoc _ _ a) by done. lia.
Qed.

Lemma tour_length_closing (m : matrix) (start : Z) (q : list Z) :
  path_length m (start :: q ++ [start]) = closing_cost m start q start.
Proof.
  change (start :: q ++ [start]) with ([start] ++ q ++ [start]).
  rewrite (path_length_closing _ _ _ start) by done. simpl. lia.
Qed.

(** ** Unvisited locations *)

Lemma elem_of_unvisited (n : Z) (vis : list bool) (j : Z) :
  j ∈ unvisited n vis ↔ 0 ≤ j < n ∧ vis !! Z.to_nat j = Some false.
Proof.
  unfold unvisited. rewrite list_elem_of_filter, elem_of_range. tauto.
Qed.

Lemma NoDup_unvisited (n : Z) (vis : list bool) : NoDup (unvisited n vis).
Proof. apply NoDup_filter, NoDup_range. Qed.

Lemma unvisited_mark (n : Z) (vis : list bool) (c : Z) :
  c ∈ unvisited n vis →
  unvisited n vis ≡ₚ c :: unvisited n (<[Z.to_nat c := true]> vis).
Proof.
  intros Hc. pose proof Hc as [Hcn Hcv]%elem_of_unvisited.
  assert (Z.to_nat c < length vis)%nat as Hlt by (eapply lookup_lt_Some, Hcv).
  apply NoDup_Permutation.
  - apply NoDup_unvisited.
  - constructor; [|apply NoDup_unvisited].
    rewrite elem_of_unvisited, list_lookup_insert_eq by done. by intros [_ ?].
  - intros j. rewrite elem_of_cons, !elem_of_unvisited.
    destruct (decide (j = c)) as [->|Hne]; [tauto|]. split.
    + intros [Hj Hv]. right. split; [done|].
      by rewrite list_lookup_insert_ne by lia.
    + intros [?|[Hj Hv]]; [done|].
      by rewrite list_lookup_insert_ne in Hv by lia.
Qed.

Lemma filter_all {A : Type} (P : A → Prop) `{!∀ x, Decision (P x)} (l : list A) :
  Forall P l → filter P l = l.
Proof.
  induction 1 as [|x l Hx _ IH]; [done|].
  by rewrite filter_cons_True, IH.
Qed.

Lemma unvisited_fresh (n : Z) :
  unvisited n (replicate (Z.to_nat n) false) = range n.
Proof.
  unfold unvisited. apply filter_all, Forall_forall.
  intros j [? ?]%elem_of_range. apply lookup_replicate. split; [done | lia].
Qed.

Lemma unmark (vis : list bool) (k : nat) :
  vis !! k = Some false → <[k := false]> (<[k := true]> vis) = vis.
Proof. intros Hk. rewrite list_insert_insert_eq. by apply list_insert_id. Qed.

Section consistency.
Context (n : Z) (p : list Z) (vis : list bool).
Hypothesis Hc : consistent n p vis.

Lemma consistent_length :
  (length p + length (unvisited n vis))%nat = Z.to_nat n.
Proof.
  destruct Hc as [_ Hp]. apply Permutation_length in Hp.
  rewrite length_app, length_fmap in Hp. rewrite Hp.
  unfold range. by rewrite length_seqZ.
Qed.

Lemma consistent_valid (x : Z) : x ∈ p → - n ≤ x < n.
Proof.
  intros Hx. destruct Hc as [_ Hp].
  assert (norm n x ∈ range n) as Hr.
  { rewrite <- Hp. apply elem_of_app. left. by apply list_elem_of_fmap_2. }
  apply elem_of_range in Hr. unfold norm in Hr. case_bool_decide; lia.
Qed.

Lemma consistent_child (c : Z) :
  c ∈ unvisited n vis →
  consistent n (p ++ [c]) (<[Z.to_nat c := true]> vis).
Proof.
  intros Hcu. destruct Hc as [Hlen Hp]. split; [by rewrite py_len_insert|].
  pose proof Hcu as [Hcn _]%elem_of_unvisited.
  rewrite fmap_app, <- app_assoc. simpl. rewrite norm_id by lia.
  by rewrite <- (unvisited_mark n vis c Hcu).
Qed.

Lemma consistent_leaf : py_len p = n → unvisited n vis = [].
Proof.
  intros Hl. pose proof consistent_length. unfold py_len in Hl.
  apply length_zero_iff_nil. lia.
Qed.

Lemma consistent_inner :
  0 ≤ n → py_len p ≠ n → ∃ c q, unvisited n vis = c :: q.
Proof.
  intros Hn Hl. pose proof consistent_length. unfold py_len in Hl.
  destruct (unvisited n vis) as [|c q]; [simpl in *; lia | eauto].
Qed.
End consistency.

Lemma consistent_init (n start : Z) :
  - n ≤ start < n →
  consistent n [start]
    (<[Z.to_nat (norm n start) := true]> (replicate (Z.to_nat n) false)).
Proof.
  intros Hs. split.
  - rewrite py_len_insert. unfold py_len. rewrite length_replicate. lia.
  - simpl. pose proof (norm_range n start Hs) as Hr.
    symmetry.
    transitivity (unvisited n (replicate (Z.to_nat n) false));
      [by rewrite unvisited_fresh|].
    apply unvisited_mark. rewrite unvisited_fresh. by apply elem_of_range.
Qed.

Lemma consistent_marks (n : Z) (p : list Z) (vis : list bool) :
  consistent n p vis → Forall (λ j, 0 ≤ j) p → marks n p vis.
Proof.
  intros Hc Hnn. pose proof Hc as [Hlen Hp]. split; [done|]. intros j.
  assert (norm n <$> p = p) as Hid.
  { clear Hp Hc. induction Hnn as [|x l Hx _ IH]; [done|].
    by rewrite fmap_cons, IH, norm_id. }
  rewrite Hid in Hp.
  assert (NoDup (p ++ unvisited n vis)) as Hnd.
  { rewrite Hp. apply NoDup_range. }
  apply NoDup_app in Hnd as (_ & Hdisj & _). split.
  - intros Hjp. pose proof (consistent_valid n p vis Hc j Hjp) as Hj.
    rewrite Forall_forall in Hnn. specialize (Hnn j Hjp).
    split; [lia|]. specialize (Hdisj j Hjp).
    rewrite elem_of_unvisited in Hdisj.
    destruct (lookup_lt_is_Some_2 vis (Z.to_nat j)) as [[] Hb];
      [unfold py_len in Hlen; lia | done |].
    destruct Hdisj. split; [lia | done].
  - intros [Hj Ht].
    assert (j ∈ p ++ unvisited n vis) as Hin.
    { rewrite Hp. by apply elem_of_range. }
    apply elem_of_app in Hin as [|[_ Hf]%elem_of_unvisited]; [done | congruence].
Qed.

(** ** The depth-first search *)

Lemma dle_refl (a : distance) : dle a a.
Proof. destruct a; simpl; [done | lia]. Qed.

Lemma dle_trans (a b c : distance) : dle a b → dle b c → dle a c.
Proof. destruct a, b, c; simpl; try done; lia. Qed.

Lemma lt_distance_false (x : Z) (best : distance) :
  lt_distance x best = false → dle best (Fin x).
Proof. destruct best; simpl; [done | lia]. Qed.

Lemma lt_distance_true (x : Z) (best : distance) :
  lt_distance x best = true → dle (Fin x) best.
Proof. destruct best; simpl; [done | lia]. Qed.

Lemma pruning_test_sound (m : matrix) : nonneg m → sound_test m pruning_test.
Proof. by intros Hnn x best Ht. Qed.

Lemma no_test_sound (m : matrix) : sound_test m no_test.
Proof. by intros x best Ht. Qed.

Section search.
Context (test : Z → distance → bool) (m : matrix) (n start : Z).
Hypothesis Htest_inf : ∀ x, test x Inf = true.
Hypothesis Hn : n = py_len m.
Hypothesis Hsq : square m.
Hypothesis Hstart : - n ≤ start < n.

Lemma scanned_nil cd cur s : scanned test m n start [] cd cur s s.
Proof.
  split; try done.
  - apply dle_refl.
  - by left.
  - intros [?|(c & Hc & _)]; [done | by apply elem_of_nil in Hc].
  - intros _ c q Hc. by apply elem_of_nil in Hc.
Qed.

Lemma scanned_cons c l cd cur s s1 s2 :
  scanned test m n start [c] cd cur s s1 → scanned test m n start l cd cur s1 s2 →
  scanned test m n start (c :: l) cd cur s s2.
Proof.
  intros H1 H2.
  pose proof (scanned_path _ _ _ _ _ _ _ _ _ H1) as Hp1.
  pose proof (scanned_visited _ _ _ _ _ _ _ _ _ H1) as Hv1.
  split.
  - by rewrite (scanned_path _ _ _ _ _ _ _ _ _ H2).
  - by rewrite (scanned_visited _ _ _ _ _ _ _ _ _ H2).
  - eapply dle_trans; [apply H2 | apply H1].
  - destruct (scanned_best _ _ _ _ _ _ _ _ _ H2) as [[Hd Hb]|(q & Hq & Hd & Hb)].
    + rewrite Hd, Hb. apply H1.
    + right. exists q. by rewrite <- Hv1, <- Hp1.
  - intros Hfin. apply (scanned_finite _ _ _ _ _ _ _ _ _ H2).
    destruct Hfin as [Hfin|(c' & [->|Hc']%elem_of_cons & Hu)].
    + left. apply (scanned_finite _ _ _ _ _ _ _ _ _ H1). by left.
    + left. apply (scanned_finite _ _ _ _ _ _ _ _ _ H1). right. exists c.
      split; [apply list_elem_of_singleton|]; done.
    + right. exists c'. by rewrite Hv1.
  - intros Hs c' q [->|Hc']%elem_of_cons Hq.
    + eapply dle_trans; [apply H2|].
      apply (scanned_bound _ _ _ _ _ _ _ _ _ H1 Hs); [apply list_elem_of_singleton|]; done.
    + apply (scanned_bound _ _ _ _ _ _ _ _ _ H2 Hs); [done | by rewrite Hv1].
Qed.

(** A loop whose body scans one child at a time scans them all. *)
Lemma scan_loop (body : Z → search_state → res search_state) cd cur p vis :
  (∀ c s, 0 ≤ c < n → path s = p → visited s = vis →
          ∃ s1, body c s = Ok s1 ∧ scanned test m n start [c] cd cur s s1) →
  ∀ l s, Forall (λ c, 0 ≤ c < n) l → path s = p → visited s = vis →
         ∃ s', for_in l body s = Ok s' ∧ scanned test m n start l cd cur s s'.
Proof.
  intros Hbody l. induction l as [|c l IH]; intros s Hl Hp Hv; simpl.
  - exists s. split; [done | apply scanned_nil].
  - apply Forall_cons in Hl as [Hc Hl].
    destruct (Hbody c s Hc Hp Hv) as (s1 & -> & H1). simpl.
    destruct (IH s1 Hl) as (s2 & -> & H2).
    + by rewrite (scanned_path _ _ _ _ _ _ _ _ _ H1).
    + by rewrite (scanned_visited _ _ _ _ _ _ _ _ _ H1).
    + exists s2. split; [done | by eapply scanned_cons].
Qed.

(** The leaf of the search: the closing edge completes a candidate tour. *)
Lemma leaf_searched cd cur s :
  unvisited n (visited s) = [] →
  let total_distance := cd + edge m cur start in
  searched test m n start cd cur s
    (if lt_distance total_distance (best_distance s)
     then SearchState (path s) (visited s) (Fin total_distance) (path s)
     else s).
Proof.
  intros Hu total_distance. destruct (lt_distance _ _) eqn:Hlt.
  - split; simpl; try done.
    + by apply lt_distance_true.
    + right. exists []. rewrite Hu. by rewrite app_nil_r.
    + intros _ q Hq. rewrite Hu in Hq. apply Permutation_nil_r in Hq as ->.
      simpl. unfold total_distance. lia.
  - split; try done.
    + apply dle_refl.
    + by left.
    + intros E. by rewrite E in Hlt.
    + intros _ q Hq. rewrite Hu in Hq. apply Permutation_nil_r in Hq as ->.
      simpl. by apply lt_distance_false.
Qed.

(** A child that is skipped, because it is visited already. *)
Lemma skip_visited c cd cur s :
  visited s !! Z.to_nat c = Some true → scanned test m n start [c] cd cur s s.
Proof.
  intros Hv.
  assert (c ∉ unvisited n (visited s)) as Hnot.
  { rewrite elem_of_unvisited. intros [_ ?]. congruence. }
  split; try done.
  - apply dle_refl.
  - by left.
  - intros [?|(c' & ->%list_elem_of_singleton & Hc')]; done.
  - intros _ c' q ->%list_elem_of_singleton Hq. destruct Hnot.
    rewrite <- Hq. apply elem_of_cons. by left.
Qed.

(** A child that is pruned. *)
Lemma skip_pruned c cd cur s :
  test (cd + edge m cur c) (best_distance s) = false →
  scanned test m n start [c] cd cur s s.
Proof.
  intros Ht. split; try done.
  - apply dle_refl.
  - by left.
  - intros _ E. rewrite E, Htest_inf in Ht. done.
  - intros Hs c' q ->%list_elem_of_singleton Hq.
    destruct (Hs _ _ Ht) as [Hlt Hnn].
    eapply dle_trans; [by apply lt_distance_false|]. simpl.
    pose proof (closing_cost_nonneg m c q start Hnn). lia.
Qed.

(** A child that is explored, then undone. *)
Lemma explored c cd cur s s' :
  c ∈ unvisited n (visited s) →
  searched test m n start (cd + edge m cur c) c
    (SearchState (path s ++ [c]) (<[Z.to_nat c := true]> (visited s))
       (best_distance s) (best_path s)) s' →
  scanned test m n start [c] cd cur s
    (SearchState (path s) (visited s) (best_distance s') (best_path s')).
Proof.
  intros Hc [_ _ Hle Hbest Hfin Hbound]; simpl in *.
  pose proof (unvisited_mark n (visited s) c Hc) as Hmark.
  split; simpl; try done.
  - destruct Hbest as [?|(q & Hq & Hd & Hb)]; [by left|].
    right. exists (c :: q). split; [by rewrite Hmark, Hq|].
    rewrite Hd, Hb, <- app_assoc. simpl. split; [f_equal; lia | done].
  - intros Hs c' q ->%list_elem_of_singleton Hq.
    rewrite Hmark in Hq. apply Permutation_cons_inv in Hq.
    specialize (Hbound Hs q Hq). simpl.
    by replace (cd + (edge m cur c + closing_cost m c q start))
      with (cd + edge m cur c + closing_cost m c q start) by lia.
Qed.

Lemma backtrack_with_searched fuel :
  ∀ cd cur s,
    consistent n (path s) (visited s) → last (path s) = Some cur →
    (length (unvisited n (visited s)) < fuel)%nat →
    ∃ s', backtrack_with test m n start fuel cd s = Ok s' ∧
          searched test m n start cd cur s s'.
Proof.
  induction fuel as [|fuel IH]; intros cd cur s Hc Hl Hf; [lia|].
  assert (0 ≤ n) as Hn0 by (rewrite Hn; unfold py_len; lia).
  assert (- n ≤ cur < n) as Hcur.
  { apply (consistent_valid n _ _ Hc). by apply last_Some_elem_of. }
  simpl. rewrite (getitem_last _ _ Hl). simpl.
  destruct (py_len (path s) =? n) eqn:Hlen.
  - apply Z.eqb_eq in Hlen. rewrite lookup2_edge by (by rewrite <- ?Hn).
    simpl. pose proof (leaf_searched cd cur s (consistent_leaf _ _ _ Hc Hlen)) as Hleaf.
    simpl in Hleaf. destruct (lt_distance _ _); eauto.
  - apply Z.eqb_neq in Hlen.
    match goal with |- context [for_in _ ?b _] => set (body := b) end.
    assert (∀ c s0, 0 ≤ c < n → path s0 = path s → visited s0 = visited s →
              ∃ s1, body c s0 = Ok s1 ∧ scanned test m n start [c] cd cur s0 s1) as Hbody.
    { intros c s0 Hcn Hp0 Hv0. unfold body.
      destruct Hc as [Hlenv Hperm].
      destruct (lookup_lt_is_Some_2 (visited s) (Z.to_nat c)) as [v Hv];
        [unfold py_len in Hlenv; lia|].
      rewrite Hv0, (getitem_nonneg _ _ v) by (done || lia). simpl.
      destruct v; simpl.
      { exists s0. split; [done|]. apply skip_visited. by rewrite Hv0. }
      assert (c ∈ unvisited n (visited s)) as Hcu by by apply elem_of_unvisited.
      rewrite lookup2_edge by (rewrite <- ?Hn; done || lia). simpl.
      destruct (test _ _) eqn:Ht; [|exists s0; split; [done | by apply skip_pruned]].
      rewrite setitem_nonneg by lia. simpl. rewrite Hp0.
      destruct (IH (cd + edge m cur c) c
        (SearchState (path s ++ [c]) (<[Z.to_nat c := true]> (visited s))
           (best_distance s0) (best_path s0))) as (s' & -> & Hs').
      - simpl. by apply consistent_child.
      - simpl. apply last_snoc.
      - simpl. pose proof (unvisited_mark n (visited s) c Hcu) as Hmark.
        apply Permutation_length in Hmark. simpl in Hmark. lia.
      - simpl. rewrite (searched_path _ _ _ _ _ _ _ _ Hs'), (searched_visited _ _ _ _ _ _ _ _ Hs').
        simpl. rewrite pop_snoc. simpl.
        rewrite setitem_nonneg by (rewrite py_len_insert; lia). simpl.
        rewrite unmark by done. eexists. split; [done|].
        rewrite <- Hp0, <- Hv0 in Hs' |- *. apply explored; [by rewrite Hv0 | done]. }
    destruct (scan_loop body cd cur (path s) (visited s) Hbody (range n) s)
      as (s' & Hs' & Hscan); try done.
    { apply Forall_forall. intros c. by rewrite elem_of_range. }
    exists s'. split; [done|].
    destruct (consistent_inner _ _ _ Hc Hn0 Hlen) as (c0 & q0 & Hu).
    destruct Hscan as [Hp Hv Hle Hbest Hfin Hbound]. split; try done.
    + apply Hfin. right. exists c0.
      assert (c0 ∈ unvisited n (visited s)) as Hc0 by (rewrite Hu; by left).
      split; [|done]. apply elem_of_range. by apply elem_of_unvisited in Hc0 as [? _].
    + intros Hs q Hq. destruct q as [|c q].
      { rewrite Hu in Hq. by apply Permutation_nil_cons in Hq. }
      apply Hbound; [done| |done].
      assert (c ∈ unvisited n (visited s)) as Hcu by (rewrite <- Hq; by left).
      apply elem_of_range. by apply elem_of_unvisited in Hcu as [? _].
Qed.
End search.

(** ** The exact solver, with or without pruning *)

Lemma solve_with_spec (test : Z → distance → bool) (fuel : nat)
    (m : matrix) (start : Z) :
  (∀ x, test x Inf = true) → square m →
  - py_len m ≤ start < py_len m → (length m ≤ fuel)%nat →
  ∃ q,
    solve_with test fuel m start =
      Ok (start :: q ++ [start], Fin (closing_cost m start q start)) ∧
    norm (py_len m) start :: q ≡ₚ range (py_len m) ∧
    (sound_test m test →
     ∀ q', norm (py_len m) start :: q' ≡ₚ range (py_len m) →
           closing_cost m start q start ≤ closing_cost m start q' start).
Proof.
  intros Htest Hsq Hstart Hfuel. unfold solve_with.
  set (n := py_len m) in *.
  assert (length m = Z.to_nat n) as Hlen by (unfold n, py_len; lia).
  rewrite Hlen.
  assert (py_len (replicate (Z.to_nat n) false) = n) as Hrep.
  { unfold py_len. rewrite length_replicate. unfold n, py_len. lia. }
  pose proof (consistent_init n start Hstart) as Hc.
  set (vis := <[Z.to_nat (norm n start) := true]> (replicate (Z.to_nat n) false)) in *.
  assert (setitem (replicate (Z.to_nat n) false) start true = Ok vis) as ->.
  { apply setitem_Ok. by rewrite Hrep. }
  simpl.
  destruct (backtrack_with_searched test m n start Htest eq_refl Hsq Hstart fuel 0 start
              (SearchState [start] vis Inf [])) as (s' & -> & Hs'); simpl; try done.
  { pose proof (consistent_length _ _ _ Hc) as Hl. simpl in Hl. lia. }
  destruct Hs' as [_ _ _ Hbest Hfin Hbound]; simpl in *.
  destruct Hbest as [[? _]|(q & Hq & Hd & Hb)]; [done|].
  destruct Hc as [_ Hperm]. simpl in Hperm.
  exists q. rewrite Hd, Hb. simpl. split; [done|]. split; [by rewrite Hq|].
  intros Hs q' Hq'. rewrite <- Hperm in Hq'. apply Permutation_cons_inv in Hq'.
  specialize (Hbound Hs q' Hq'). rewrite Hd in Hbound. simpl in Hbound. lia.
Qed.

(** ** The nearest-neighbour selection *)

Lemma seqZ_sorted (k : nat) (a : Z) : StronglySorted Z.lt (seqZ a (Z.of_nat k)).
Proof.
  revert a. induction k as [|k IH]; intros a.
  - rewrite seqZ_nil by lia. constructor.
  - rewrite seqZ_cons by lia.
    replace (Z.pred (Z.of_nat (S k))) with (Z.of_nat k) by lia.
    constructor; [apply IH|]. apply Forall_seqZ. lia.
Qed.

Lemma range_sorted (n : Z) : StronglySorted Z.lt (range n).
Proof.
  unfold range. destruct (decide (0 ≤ n)) as [Hn|Hn].
  - rewrite <- (Z2Nat.id n Hn). apply seqZ_sorted.
  - rewrite seqZ_nil by lia. constructor.
Qed.

Lemma filter_sorted {A : Type} (R : relation A) (P : A → Prop)
    `{!∀ x, Decision (P x)} (l : list A) :
  StronglySorted R l → StronglySorted R (filter P l).
Proof.
  induction 1 as [|x l _ IH Hx]; [constructor|].
  rewrite filter_cons. case_decide; [|done].
  constructor; [done|]. apply Forall_forall. intros y [_ Hy]%list_elem_of_filter.
  by apply (proj1 (Forall_forall _ _) Hx).
Qed.

Lemma unvisited_sorted (n : Z) (vis : list bool) :
  StronglySorted Z.lt (unvisited n vis).
Proof. apply filter_sorted, range_sorted. Qed.

Lemma candidates_filter (m : matrix) (vis : list bool) (cur : Z) (js : list Z) :
  square m → - py_len m ≤ cur < py_len m → py_len vis = py_len m →
  Forall (λ j, 0 ≤ j < py_len m) js →
  candidates m vis cur js =
    Ok ((λ j, (edge m cur j, j)) <$>
        filter (λ j, vis !! Z.to_nat j = Some false) js).
Proof.
  intros Hsq Hcur Hlen. induction 1 as [|j js Hj _ IH]; [done|]. simpl.
  destruct (lookup_lt_is_Some_2 vis (Z.to_nat j)) as [v Hv];
    [unfold py_len in *; lia|].
  rewrite (getitem_nonneg _ _ v) by (done || lia). simpl.
  rewrite IH, filter_cons. destruct v; simpl.
  - by rewrite decide_False by congruence.
  - rewrite decide_True by done. by rewrite lookup2_edge by (done || lia).
Qed.

(** [min_scan] returns the first element of least key. *)
Lemma min_scan_first (l pre mid : list (Z * Z)) (x : Z * Z) :
  Forall (λ y, x.1 < y.1) pre → Forall (λ y, x.1 ≤ y.1) mid →
  ∃ l1 l2,
    pre ++ x :: mid ++ l = l1 ++ min_scan x l :: l2 ∧
    Forall (λ y, (min_scan x l).1 < y.1) l1 ∧
    Forall (λ y, (min_scan x l).1 ≤ y.1) l2.
Proof.
  revert pre mid x. induction l as [|y l IH]; intros pre mid x Hpre Hmid; simpl.
  - exists pre, mid. by rewrite app_nil_r.
  - destruct (y.1 <? x.1) eqn:Hlt.
    + apply Z.ltb_lt in Hlt.
      destruct (IH (pre ++ x :: mid) [] y) as (l1 & l2 & Heq & H1 & H2).
      * apply Forall_app. split; [|constructor; [done|]].
        -- eapply Forall_impl; [exact Hpre|]. simpl. lia.
        -- eapply Forall_impl; [exact Hmid|]. simpl. lia.
      * constructor.
      * exists l1, l2. split; [|done]. rewrite <- Heq. by rewrite <- app_assoc.
    + apply Z.ltb_ge in Hlt.
      destruct (IH pre (mid ++ [y]) x) as (l1 & l2 & Heq & H1 & H2); [done| |].
      * apply Forall_app. split; [done|]. by constructor.
      * exists l1, l2. split; [|done]. rewrite <- Heq. by rewrite <- app_assoc.
Qed.

Lemma py_min_nearest (m : matrix) (n : Z) (vis : list bool) (cur : Z) :
  unvisited n vis ≠ [] →
  ∃ j, py_min ((λ j, (edge m cur j, j)) <$> unvisited n vis) =
         Ok (edge m cur j, j) ∧
       nearest_unvisited m n vis cur j.
Proof.
  intros Hne. pose proof (unvisited_sorted n vis) as Hsorted.
  assert (∀ j, j ∈ unvisited n vis → 0 ≤ j < n ∧ vis !! Z.to_nat j = Some false)
    as Hin by (intros j; by rewrite elem_of_unvisited).
  destruct (unvisited n vis) as [|j0 u] eqn:Hu; [done|].
  rewrite fmap_cons. unfold py_min.
  destruct (min_scan_first ((λ j, (edge m cur j, j)) <$> u) [] []
              (edge m cur j0, j0)) as (l1 & l2 & Heq & H1 & H2); [constructor..|].
  cbn [app] in Heq.
  change ((edge m cur j0, j0) :: ((λ j, (edge m cur j, j)) <$> u))
    with ((λ j, (edge m cur j, j)) <$> j0 :: u) in Heq.
  apply fmap_app_inv in Heq as (u1 & u2' & -> & Hr & Heq).
  symmetry in Hr. apply fmap_cons_inv in Hr as (j & u2 & Hj & -> & ->).
  rewrite Hj in *. exists j. split; [done|]. simpl in *.
  rewrite Forall_fmap in H1, H2. rewrite Forall_forall in H1, H2.
  rewrite Heq in *. clear Heq Hj Hne.
  split; [apply Hin; apply elem_of_app; right; by left|].
  intros k Hk Hv.
  assert (k ∈ u1 ++ j :: u2) as Hku.
  { rewrite <- Hu. by apply elem_of_unvisited. }
  apply elem_of_app in Hku as [Hk1|[->|Hk2]%elem_of_cons].
  - specialize (H1 k Hk1). simpl in H1. lia.
  - lia.
  - specialize (H2 k Hk2). simpl in H2. split; [done|]. intros _.
    apply StronglySorted_app_1_r, StronglySorted_cons in Hsorted as [Hlt _].
    rewrite Forall_forall in Hlt. specialize (Hlt k Hk2). lia.
Qed.

(** ** The nearest-neighbour tour *)

Section greedy.
Context (m : matrix) (n start : Z).
Hypothesis Hn : n = py_len m.
Hypothesis Hsq : square m.

Lemma greedy_step_select st :
  greedy_inv m n start st → unvisited n (g_visited st) ≠ [] →
  ∃ j, nearest_unvisited m n (g_visited st) (g_current st) j ∧
       greedy_step m n st = Ok (select m st j).
Proof.
  intros [Hc Hl _ _] Hne. unfold greedy_step.
  assert (- n ≤ g_current st < n) as Hcur.
  { apply (consistent_valid n _ _ Hc). by apply last_Some_elem_of. }
  pose proof Hc as [Hlen _].
  rewrite candidates_filter; try (rewrite <- ?Hn; done).
  2:{ apply Forall_forall. intros j. rewrite <- Hn. by rewrite elem_of_range. }
  simpl. fold (unvisited n (g_visited st)).
  destruct (py_min_nearest m n (g_visited st) (g_current st) Hne)
    as (j & -> & Hj).
  exists j. split; [done|]. simpl. destruct Hj as [[Hjn Hjv] _].
  rewrite lookup2_edge by (rewrite <- ?Hn; done || lia). simpl.
  by rewrite setitem_nonneg by lia.
Qed.

Lemma greedy_inv_select st j :
  greedy_inv m n start st → j ∈ unvisited n (g_visited st) →
  greedy_inv m n start (select m st j).
Proof.
  intros [Hc Hl Ht (q & Hq & Hnn)] Hj. split; simpl.
  - by apply consistent_child.
  - apply last_snoc.
  - by rewrite (path_length_snoc _ _ (g_current st)), Ht.
  - exists (q ++ [j]). rewrite Hq. split; [done|].
    apply Forall_app. split; [done|]. constructor; [|done].
    by apply elem_of_unvisited in Hj as [[? _] _].
Qed.

Lemma greedy_loop (l : list Z) :
  ∀ st, greedy_inv m n start st →
    (length l ≤ length (unvisited n (g_visited st)))%nat →
    ∃ st', for_in l (λ _, greedy_step m n) st = Ok st' ∧
           selections m n (length l) st st' ∧ greedy_inv m n start st' ∧
           length (g_path st') = (length (g_path st) + length l)%nat.
Proof.
  induction l as [|i l IH]; intros st Hinv Hlen; simpl.
  - exists st. split; [done|]. split; [constructor|]. split; [done | lia].
  - assert (unvisited n (g_visited st) ≠ []) as Hne.
    { intros E. rewrite E in Hlen. simpl in Hlen. lia. }
    destruct (greedy_step_select st Hinv Hne) as (j & Hj & ->). simpl.
    assert (j ∈ unvisited n (g_visited st)) as Hju
      by (apply elem_of_unvisited, Hj).
    destruct (IH (select m st j)) as (st' & -> & Hsel & Hinv' & Hlen').
    + by apply greedy_inv_select.
    + pose proof (unvisited_mark n _ j Hju) as Hmark.
      apply Permutation_length in Hmark. simpl in *. lia.
    + exists st'. split; [done|]. split; [by econstructor|]. split; [done|].
      rewrite Hlen'. simpl. rewrite length_app. simpl. lia.
Qed.
End greedy.

Lemma tsp_greedy_spec (m : matrix) (start : Z) :
  square m → - py_len m ≤ start < py_len m →
  ∃ st q,
    selections m (py_len m) (Z.to_nat (py_len m - 1)) (greedy_init m start) st ∧
    g_path st = start :: q ∧
    norm (py_len m) start :: q ≡ₚ range (py_len m) ∧
    g_total st + edge m (g_current st) start =
      path_length m (start :: q ++ [start]) ∧
    tsp_greedy m start =
      Ok (g_path st ++ [start], g_total st + edge m (g_current st) start).
Proof.
  intros Hsq Hstart. unfold tsp_greedy.
  set (n := py_len m) in *.
  assert (length m = Z.to_nat n) as Hlen by (unfold n, py_len; lia).
  assert (py_len (replicate (length m) false) = n) as Hrep.
  { unfold py_len. rewrite length_replicate. done. }
  assert (setitem (replicate (length m) false) start true =
            Ok (g_visited (greedy_init m start))) as ->.
  { apply setitem_Ok. by rewrite Hrep. }
  simpl. fold n.
  pose proof (consistent_init n start Hstart) as Hc. rewrite <- Hlen in Hc.
  assert (greedy_inv m n start (greedy_init m start)) as Hinv.
  { split; simpl; try done. by exists []. }
  pose proof (consistent_length _ _ _ Hc) as Hl. simpl in Hl.
  destruct (greedy_loop m n start eq_refl Hsq (range (n - 1))
              (greedy_init m start) Hinv) as (st & Hrun & Hsel & Hinv' & Hlen').
  { simpl. fold n. rewrite range_length by lia. lia. }
  rewrite range_length in Hsel, Hlen' by lia. simpl in Hlen'.
  unfold greedy_init in Hrun. fold n in Hrun. rewrite Hrun. simpl.
  destruct Hinv' as [Hc' Hl' Ht' (q & Hq & Hnn)].
  assert (- n ≤ g_current st < n) as Hcur.
  { apply (consistent_valid n _ _ Hc'). by apply last_Some_elem_of. }
  rewrite lookup2_edge by done. simpl.
  exists st, q. split; [done|]. split; [done|].
  pose proof (consistent_leaf _ _ _ Hc') as Hleaf.
  destruct Hc' as [_ Hperm].
  rewrite Hleaf, app_nil_r, Hq, fmap_cons in Hperm by (unfold py_len; lia).
  assert (norm n <$> q = q) as Hid.
  { clear -Hnn. induction Hnn as [|x l Hx _ IH]; [done|].
    by rewrite fmap_cons, IH, norm_id. }
  rewrite Hid in Hperm. split; [done|]. split; [|reflexivity].
  transitivity (path_length m ((start :: q) ++ [start])); [|done].
  rewrite (path_length_snoc _ _ (g_current st)) by (by rewrite <- Hq).
  by rewrite Ht', Hq.
Qed.

(** ** Recomputing the length of a tour *)

Lemma recompute_prefix (m : matrix) (p : list Z) (k : nat) :
  square m → Forall (λ a, - py_len m ≤ a < py_len m) p →
  (k < length p)%nat →
  for_in (seqZ 0 (Z.of_nat k)) (λ k acc,
    do a <~ getitem p k ;;
    do b <~ getitem p (k + 1) ;;
    do d <~ lookup2 m a b ;;
    Ok (acc + d)) 0 = Ok (path_length m (take (S k) p)).
Proof.
  intros Hsq Hp. induction k as [|k IH]; intros Hk.
  - destruct p as [|x p]; [simpl in Hk; lia|]. by rewrite seqZ_nil.
  - rewrite seqZ_S, for_in_app, IH by lia. simpl.
    destruct (lookup_lt_is_Some_2 p k) as [a Ha]; [lia|].
    destruct (lookup_lt_is_Some_2 p (S k)) as [b Hb]; [lia|].
    rewrite Z.add_0_l.
    assert (getitem p (Z.of_nat k) = Ok a) as ->.
    { apply getitem_nonneg; [lia|]. by rewrite Nat2Z.id. }
    assert (getitem p (Z.of_nat k + 1) = Ok b) as ->.
    { apply getitem_nonneg; [lia|].
      by replace (Z.to_nat (Z.of_nat k + 1)) with (S k) by lia. }
    simpl. rewrite Forall_forall in Hp.
    rewrite lookup2_edge; try done.
    + simpl. rewrite (take_S_r _ (S k) b) by done.
      rewrite (path_length_snoc _ _ a); [done|].
      rewrite (take_S_r _ k a) by done. apply last_snoc.
    + by apply Hp, list_elem_of_lookup_2 with k.
    + by apply Hp, list_elem_of_lookup_2 with (S k).
Qed.

Lemma recompute_closed_tour (m : matrix) (start : Z) (q : list Z) :
  square m → - py_len m ≤ start < py_len m →
  norm (py_len m) start :: q ≡ₚ range (py_len m) →
  recompute m (start :: q ++ [start]) =
    Ok (path_length m (start :: q ++ [start])).
Proof.
  intros Hsq Hstart Hperm. unfold recompute, range, py_len.
  assert (length (start :: q ++ [start]) = S (length m)) as Hlen.
  { apply Permutation_length in Hperm. rewrite range_length in Hperm
      by (unfold py_len; lia).
    simpl in *. rewrite length_app. simpl. unfold py_len in Hperm. lia. }
  rewrite recompute_prefix; [|done| |lia].
  - by rewrite take_ge by lia.
  - constructor; [done|]. apply Forall_app. split; [|by constructor].
    apply Forall_forall. intros j Hj.
    assert (j ∈ range (py_len m)) as Hr by (rewrite <- Hperm; by right).
    apply elem_of_range in Hr. lia.
Qed.

(** ** The record of calls *)

Lemma for_in_erase {S T : Type} (l : list Z) (body : Z → S → res S)
    (body' : Z → S * T → res (S * T)) :
  (∀ c r, (do r' <~ body' c r ;; Ok r'.1) = body c r.1) →
  ∀ r, (do r' <~ for_in l body' r ;; Ok r'.1) = for_in l body r.1.
Proof.
  intros Hbody. induction l as [|c l IH]; intros r; simpl; [done|].
  rewrite <- Hbody. destruct (body' c r) as [r1| |]; simpl; [apply IH|done..].
Qed.

(** Dropping the record of calls gives [backtrack] itself. *)
Lemma backtrack_calls_erase (m : matrix) (n start : Z) (fuel : nat) :
  ∀ cd s,
    (do r <~ backtrack_calls m n start fuel cd s ;; Ok r.1) =
    backtrack m n start fuel cd s.
Proof.
  unfold backtrack. induction fuel as [|fuel IH]; intros cd s; simpl; [done|].
  destruct (getitem (path s) (-1)) as [cur| |]; simpl; [|done..].
  destruct (py_len (path s) =? n).
  - destruct (lookup2 m cur start) as [d| |]; simpl; [|done..].
    by destruct (lt_distance _ _).
  - match goal with
    | |- context [for_in _ ?b (s, [])] => set (body' := b)
    end.
    match goal with
    | |- _ = for_in _ ?b s => set (body := b)
    end.
    assert (∀ c r, (do r' <~ body' c r ;; Ok r'.1) = body c r.1) as Hbody.
    { intros c r. unfold body, body'.
      destruct (getitem (visited r.1) c) as [v| |]; simpl; [|done..].
      destruct (negb v); [|done].
      destruct (lookup2 m cur c) as [d| |]; simpl; [|done..].
      destruct (pruning_test _ _); [|done].
      destruct (setitem (visited r.1) c true) as [vis1| |]; simpl; [|done..].
      rewrite <- IH.
      destruct (backtrack_calls _ _ _ _ _ _) as [r'| |]; simpl; [|done..].
      destruct (pop (path r'.1)) as [p2| |]; simpl; [|done..].
      by destruct (setitem (visited r'.1) c false) as [vis2| |]. }
    pose proof (for_in_erase (range n) body body' Hbody (s, [])) as He.
    simpl in He. rewrite <- He.
    by destruct (for_in (range n) body' (s, [])).
Qed.

Lemma Forall_all_calls (P : call_tree → Prop) p vis cs p' vis' :
  P (Call p vis cs p' vis') → Forall (λ c, Forall P (all_calls c)) cs →
  Forall P (all_calls (Call p vis cs p' vis')).
Proof.
  intros Hroot Hcs. simpl. constructor; [done|]. clear Hroot.
  induction Hcs as [|c cs Hc _ IH]; simpl; [constructor|].
  apply Forall_app. by split.
Qed.

Lemma call_depth_children p vis cs p' vis' (d : nat) :
  Forall (λ c, (call_depth c ≤ d)%nat) cs →
  (call_depth (Call p vis cs p' vis') ≤ S d)%nat.
Proof.
  intros Hcs. cbn [call_depth]. apply le_n_S.
  induction Hcs as [|c cs Hc _ IH]; cbn [foldr]; [lia|].
  by apply Nat.max_lub.
Qed.

(** A loop whose body adds at most one call to the record adds at most as
    many calls as it has iterations. *)
Lemma calls_loop (n : Z) (body : Z → search_state * list call_tree →
                              res (search_state * list call_tree))
    (p : list Z) (vis : list bool) (Q : call_tree → Prop) :
  (∀ c r r', 0 ≤ c < n → path r.1 = p → visited r.1 = vis →
     body c r = Ok r' →
     path r'.1 = p ∧ visited r'.1 = vis ∧
     (r'.2 = r.2 ∨ ∃ t, r'.2 = r.2 ++ [t] ∧ Q t)) →
  ∀ l r r', Forall (λ c, 0 ≤ c < n) l → path r.1 = p → visited r.1 = vis →
    for_in l body r = Ok r' →
    path r'.1 = p ∧ visited r'.1 = vis ∧
    ∃ new, r'.2 = r.2 ++ new ∧ (length new ≤ length l)%nat ∧ Forall Q new.
Proof.
  intros Hbody l. induction l as [|c l IH]; intros r r' Hl Hp Hv Hrun;
    simpl in Hrun.
  - simplify_eq. do 2 (split; [done|]). exists []. by rewrite app_nil_r.
  - apply Forall_cons in Hl as [Hc Hl].
    destruct (body c r) as [r1| |] eqn:Hr1; simpl in Hrun; [|done..].
    destruct (Hbody c r r1 Hc Hp Hv Hr1) as (Hp1 & Hv1 & Hcalls).
    destruct (IH r1 r' Hl Hp1 Hv1 Hrun) as (Hp' & Hv' & new & Hnew & Hlen & HQ).
    do 2 (split; [done|]).
    destruct Hcalls as [E|(t & E & Ht)]; rewrite E in Hnew.
    + exists new. split; [done|]. split; [simpl; lia | done].
    + exists (t :: new). rewrite <- app_assoc in Hnew.
      split; [done|]. split; [simpl; lia | by constructor].
Qed.

Section calls.
Context (m : matrix) (n start : Z).
Hypothesis Hn : n = py_len m.
Hypothesis Hsq : square m.
Hypothesis Hstart : - n ≤ start < n.

Lemma backtrack_calls_ok fuel :
  ∀ cd cur s r,
    consistent n (path s) (visited s) → Forall (λ j, 0 ≤ j) (path s) →
    last (path s) = Some cur →
    (length (unvisited n (visited s)) < fuel)%nat →
    backtrack_calls m n start fuel cd s = Ok r →
    call_path r.2 = path s ∧ call_visited r.2 = visited s ∧
    Forall (call_ok n) (all_calls r.2) ∧
    (call_depth r.2 ≤ S (length (unvisited n (visited s))))%nat.
Proof.
  induction fuel as [|fuel IH]; intros cd cur s r Hc Hnn Hl Hf Hrun; [lia|].
  assert (0 ≤ n) as Hn0 by (rewrite Hn; unfold py_len; lia).
  assert (- n ≤ cur < n) as Hcur.
  { apply (consistent_valid n _ _ Hc). by apply last_Some_elem_of. }
  pose proof (consistent_marks _ _ _ Hc Hnn) as Hmarks.
  pose proof (consistent_length _ _ _ Hc) as Hlen.
  simpl in Hrun. rewrite (getitem_last _ _ Hl) in Hrun. simpl in Hrun.
  destruct (py_len (path s) =? n) eqn:Hleaf.
  - rewrite lookup2_edge in Hrun by (by rewrite <- ?Hn). simpl in Hrun.
    assert (r.2 = Call (path s) (visited s) [] (path s) (visited s)) as ->
      by (destruct (lt_distance _ _); by simplify_eq).
    simpl. do 2 (split; [done|]). split; [|lia].
    constructor; [|constructor]. split; [done|]. simpl. split; [done|].
    split; [lia|]. split; [lia | constructor].
  - match type of Hrun with
    | context [for_in _ ?b _] => set (body := b) in Hrun
    end.
    destruct (for_in (range n) body (s, [])) as [r0| |] eqn:Hloop;
      simpl in Hrun; [|done..]. injection Hrun as <-. simpl.
    do 2 (split; [done|]).
    set (Q := λ c : call_tree,
      (∃ x, call_path c = path s ++ [x] ∧
            call_visited c = <[Z.to_nat x := true]> (visited s)) ∧
      Forall (call_ok n) (all_calls c) ∧
      (call_depth c ≤ length (unvisited n (visited s)))%nat).
    destruct (calls_loop n body (path s) (visited s) Q) with
      (l := range n) (r := (s, @nil call_tree)) (r' := r0)
      as (Hp0 & Hv0 & new & Hnew & Hlnew & HQ); try done.
    2:{ apply Forall_forall. intros c. by rewrite elem_of_range. }
    + intros c r r' Hcn Hp Hv Hbody. unfold body in Hbody.
      pose proof Hc as [Hlenv _].
      destruct (lookup_lt_is_Some_2 (visited s) (Z.to_nat c)) as [v Hvc];
        [unfold py_len in Hlenv; lia|].
      rewrite Hv, (getitem_nonneg _ _ v) in Hbody by (done || lia).
      simpl in Hbody. destruct v; simpl in Hbody; [simplify_eq; auto|].
      assert (c ∈ unvisited n (visited s)) as Hcu by by apply elem_of_unvisited.
      rewrite lookup2_edge in Hbody by (rewrite <- ?Hn; done || lia).
      simpl in Hbody.
      destruct (pruning_test _ _); [|simplify_eq; auto].
      rewrite setitem_nonneg in Hbody by lia. simpl in Hbody. rewrite Hp in Hbody.
      destruct (backtrack_calls _ _ _ _ _ _) as [rc| |] eqn:Hrc;
        simpl in Hbody; [|done..].
      pose proof (unvisited_mark n (visited s) c Hcu) as Hmark.
      apply Permutation_length in Hmark. simpl in Hmark.
      assert (consistent n (path s ++ [c])
                (<[Z.to_nat c := true]> (visited s))) as Hcc
        by (by apply consistent_child).
      destruct (backtrack_with_searched pruning_test m n start
                  (λ _, eq_refl) Hn Hsq Hstart fuel (cd + edge m cur c) c
                  (SearchState (path s ++ [c]) (<[Z.to_nat c := true]> (visited s))
                     (best_distance r.1) (best_path r.1)))
        as (s' & Hs' & Hsearched); simpl; [done | apply last_snoc | lia |].
      pose proof (backtrack_calls_erase m n start fuel (cd + edge m cur c)
                    (SearchState (path s ++ [c]) (<[Z.to_nat c := true]> (visited s))
                       (best_distance r.1) (best_path r.1))) as Herase.
      rewrite Hrc in Herase. simpl in Herase. unfold backtrack in Herase.
      rewrite Hs' in Herase. injection Herase as Herase.
      rewrite Herase in Hbody.
      rewrite (searched_path _ _ _ _ _ _ _ _ Hsearched),
        (searched_visited _ _ _ _ _ _ _ _ Hsearched) in Hbody. simpl in Hbody.
      rewrite pop_snoc in Hbody. simpl in Hbody.
      rewrite setitem_nonneg in Hbody by (rewrite py_len_insert; lia).
      simpl in Hbody. rewrite unmark in Hbody by done.
      injection Hbody as <-. simpl.
      do 2 (split; [done|]). right. exists rc.2. split; [done|].
      destruct (IH (cd + edge m cur c) c
                  (SearchState (path s ++ [c]) (<[Z.to_nat c := true]> (visited s))
                     (best_distance r.1) (best_path r.1)) rc)
        as (Hcp & Hcv & Hok & Hdepth); simpl in *; try done.
      * apply Forall_app. split; [done|]. constructor; [lia | done].
      * apply last_snoc.
      * lia.
      * split; [by exists c|]. split; [done | lia].
    + simpl in Hnew. subst new. rewrite range_length in Hlnew by done.
      split.
      * apply (Forall_all_calls (call_ok n) (path s) (visited s) r0.2
                 (path r0.1) (visited r0.1)).
        -- split; [done|]. simpl. split; [done|]. split; [lia|].
           split; [done|].
           eapply Forall_impl; [exact HQ|]. by intros c [? _].
        -- eapply Forall_impl; [exact HQ|]. by intros c (_ & ? & _).
      * apply (call_depth_children (path s) (visited s) r0.2
                 (path r0.1) (visited r0.1)).
        eapply Forall_impl; [exact HQ|]. by intros c (_ & _ & ?).
Qed.
End calls.

Lemma solve_with_init (test : Z → distance → bool) (fuel : nat)
    (m : matrix) (start : Z) :
  - py_len m ≤ start < py_len m →
  solve_with test fuel m start =
    (do s <~ backtrack_with test m (py_len m) start fuel 0 (search_init m start) ;;
     Ok (best_path s ++ [start], best_distance s)).
Proof.
  intros Hstart. unfold solve_with.
  assert (setitem (replicate (length m) false) start true =
            Ok (visited (search_init m start))) as ->; [|done].
  apply setitem_Ok. unfold py_len in *. rewrite length_replicate. done.
Qed.

Lemma search_init_consistent (m : matrix) (start : Z) :
  - py_len m ≤ start < py_len m →
  consistent (py_len m) (path (search_init m start))
    (visited (search_init m start)).
Proof.
  intros Hstart. pose proof (consistent_init _ _ Hstart) as Hc.
  unfold py_len in Hc at 3. by rewrite Nat2Z.id in Hc.
Qed.

(** The call [backtrack([start], visited, 0)] returns, and its record of
    calls is well formed. *)
Lemma search_calls (m : matrix) (start : Z) :
  square m → 0 ≤ start < py_len m →
  ∃ s t,
    backtrack_calls m (py_len m) start (length m) 0 (search_init m start) =
      Ok (s, t) ∧
    backtrack m (py_len m) start (length m) 0 (search_init m start) = Ok s ∧
    path s = [start] ∧ visited s = visited (search_init m start) ∧
    call_path t = [start] ∧ call_visited t = visited (search_init m start) ∧
    Forall (call_ok (py_len m)) (all_calls t) ∧
    (call_depth t ≤ length m)%nat.
Proof.
  intros Hsq Hstart.
  assert (- py_len m ≤ start < py_len m) as Hvalid by lia.
  pose proof (search_init_consistent m start Hvalid) as Hc.
  pose proof (consistent_length _ _ _ Hc) as Hlen.
  cbn [path search_init length] in Hlen.
  assert (length (unvisited (py_len m) (visited (search_init m start)))
            < length m)%nat as Hfuel.
  { unfold py_len in *. lia. }
  destruct (backtrack_with_searched pruning_test m (py_len m) start
              (λ _, eq_refl) eq_refl Hsq Hvalid (length m) 0 start
              (search_init m start) Hc eq_refl Hfuel) as (s & Hs & Hsearched).
  pose proof (backtrack_calls_erase m (py_len m) start (length m) 0
                (search_init m start)) as Herase.
  unfold backtrack in *. rewrite Hs in Herase.
  destruct (backtrack_calls _ _ _ _ _ _) as [[s' t]| |] eqn:Hcalls;
    simpl in Herase; [|done..].
  injection Herase as ->. exists s, t. do 2 (split; [done|]).
  destruct (backtrack_calls_ok m (py_len m) start eq_refl Hsq Hvalid
              (length m) 0 start (search_init m start) (s, t) Hc)
    as (Hp & Hv & Hok & Hdepth); try done.
  { simpl. constructor; [lia | constructor]. }
  split; [apply Hsearched|]. split; [apply Hsearched|].
  do 3 (split; [done|]). cbn [fst snd] in Hdepth. lia.
Qed.

(** ** More fuel does not change the search *)

Lemma for_in_more {S : Type} (l : list Z) (body1 body2 : Z → S → res S) :
  (∀ c s s', body1 c s = Ok s' → body2 c s = Ok s') →
  ∀ s s', for_in l body1 s = Ok s' → for_in l body2 s = Ok s'.
Proof.
  intros Hbody. induction l as [|c l IH]; intros s s' Hrun; simpl in *; [done|].
  destruct (body1 c s) as [s1| |] eqn:H1; simpl in Hrun; [|done..].
  rewrite (Hbody _ _ _ H1). simpl. by apply IH.
Qed.

Lemma backtrack_with_more_fuel (test : Z → distance → bool) (m : matrix)
    (n start : Z) (fuel : nat) :
  ∀ fuel' cd s s', (fuel ≤ fuel')%nat →
    backtrack_with test m n start fuel cd s = Ok s' →
    backtrack_with test m n start fuel' cd s = Ok s'.
Proof.
  induction fuel as [|fuel IH]; intros fuel' cd s s' Hle Hrun; [done|].
  destruct fuel' as [|fuel']; [lia|]. simpl in *.
  destruct (getitem (path s) (-1)) as [cur| |]; simpl in *; [|done..].
  destruct (py_len (path s) =? n); [done|].
  revert Hrun. apply for_in_more. clear s s'. intros c s s' Hbody.
  destruct (getitem (visited s) c) as [v| |]; simpl in *; [|done..].
  destruct (negb v); [|done].
  destruct (lookup2 m cur c) as [d| |]; simpl in *; [|done..].
  destruct (test _ _); [|done].
  destruct (setitem (visited s) c true) as [vis1| |]; simpl in *; [|done..].
  destruct (backtrack_with test m n start fuel _ _) as [s1| |] eqn:Hs1;
    simpl in Hbody; [|done..].
  by rewrite (IH fuel' _ _ _ ltac:(lia) Hs1).
Qed.

(** ** The search never exhausts its budget *)

Lemma for_in_invariant {S : Type} (I : S → Prop) (l : list Z)
    (body : Z → S → res S) :
  (∀ c s s', I s → body c s = Ok s' → I s') →
  ∀ s s', I s → for_in l body s = Ok s' → I s'.
Proof.
  intros Hbody. induction l as [|c l IH]; intros s s' Hs Hrun; simpl in Hrun.
  - by injection Hrun as <-.
  - destruct (body c s) as [s1| |] eqn:H1; simpl in Hrun; [|done..].
    eapply IH; [|exact Hrun]. by eapply Hbody.
Qed.

Lemma for_in_total {S : Type} (I : S → Prop) (l : list Z)
    (body : Z → S → res S) :
  (∀ c s, I s → body c s ≠ OutOfFuel ∧ ∀ s', body c s = Ok s' → I s') →
  ∀ s, I s → for_in l body s ≠ OutOfFuel.
Proof.
  intros Hbody. induction l as [|c l IH]; intros s Hs; simpl; [done|].
  destruct (Hbody c s Hs) as [Hne Hok].
  destruct (body c s) as [s1| |]; simpl; [|done..]. apply IH. by apply Hok.
Qed.

(** Whatever the matrix, a call of [backtrack] that returns leaves [path]
    and [visited] as it received them. *)
Lemma backtrack_with_frame (test : Z → distance → bool) (m : matrix)
    (n start : Z) (fuel : nat) :
  ∀ cd s s',
    backtrack_with test m n start fuel cd s = Ok s' →
    path s' = path s ∧ visited s' = visited s.
Proof.
  induction fuel as [|fuel IH]; intros cd s s' Hrun; [done|]. simpl in Hrun.
  destruct (getitem (path s) (-1)) as [cur| |]; simpl in Hrun; [|done..].
  destruct (py_len (path s) =? n).
  - destruct (lookup2 m cur start) as [d| |]; simpl in Hrun; [|done..].
    destruct (lt_distance _ _); by injection Hrun as <-.
  - revert Hrun.
    apply (for_in_invariant
             (λ s0, path s0 = path s ∧ visited s0 = visited s)); [|done].
    clear s'. intros c s0 s1 [Hp Hv] Hbody.
    destruct (getitem (visited s0) c) as [v| |] eqn:Hget; simpl in Hbody;
      [|done..].
    destruct v; simpl in Hbody; [by injection Hbody as <-|].
    destruct (lookup2 m cur c) as [d| |]; simpl in Hbody; [|done..].
    destruct (test _ _); [|by injection Hbody as <-].
    destruct (setitem (visited s0) c true) as [vis1| |] eqn:Hset1;
      simpl in Hbody; [|done..].
    destruct (backtrack_with test m n start fuel _ _) as [s2| |] eqn:Hs2;
      simpl in Hbody; [|done..].
    apply IH in Hs2 as [Hp2 Hv2]. simpl in Hp2, Hv2.
    rewrite Hp2, Hv2, pop_snoc in Hbody. simpl in Hbody.
    destruct (setitem vis1 c false) as [vis2| |] eqn:Hset2; simpl in Hbody;
      [|done..].
    injection Hbody as <-. simpl. split; [done|]. rewrite <- Hv.
    apply getitem_Ok in Hget as [_ Hget].
    apply setitem_Ok in Hset1 as [_ ->].
    apply setitem_Ok in Hset2 as [_ ->].
    rewrite py_len_insert. by apply unmark.
Qed.

(** Whatever the matrix, a call on a path of at most [n] entries needs no
    more than [n - len(path) + 1] nested calls. *)
Lemma getitem_within {A : Type} (l : list A) (i : Z) : getitem l i ≠ OutOfFuel.
Proof. unfold getitem. destruct (py_index _ _); [by destruct (l !! _) | done]. Qed.

Lemma setitem_within {A : Type} (l : list A) (i : Z) (x : A) :
  setitem l i x ≠ OutOfFuel.
Proof. unfold setitem. by destruct (py_index _ _). Qed.

Lemma lookup2_within (m : matrix) (i j : Z) : lookup2 m i j ≠ OutOfFuel.
Proof.
  unfold lookup2. pose proof (getitem_within m i).
  destruct (getitem m i); simpl; [apply getitem_within | done..].
Qed.

(** Closes a goal whose hypotheses say that a subscript ran out of budget. *)
Ltac within :=
  match goal with
  | H : getitem _ _ = OutOfFuel |- _ => destruct (getitem_within _ _ H)
  | H : setitem _ _ _ = OutOfFuel |- _ => destruct (setitem_within _ _ _ H)
  | H : lookup2 _ _ _ = OutOfFuel |- _ => destruct (lookup2_within _ _ _ H)
  end.

Lemma backtrack_with_total (test : Z → distance → bool) (m : matrix)
    (n start : Z) (fuel : nat) :
  ∀ cd s,
    py_len (path s) ≤ n → n - py_len (path s) < Z.of_nat fuel →
    backtrack_with test m n start fuel cd s ≠ OutOfFuel.
Proof.
  induction fuel as [|fuel IH]; intros cd s Hlen Hfuel; [lia|]. simpl.
  destruct (getitem (path s) (-1)) as [cur| |] eqn:?; simpl; [|done|within].
  destruct (py_len (path s) =? n) eqn:Hleaf.
  - destruct (lookup2 m cur start) as [d| |] eqn:?; simpl; [|done|within].
    by destruct (lt_distance _ _).
  - apply Z.eqb_neq in Hleaf.
    apply (for_in_total (λ s0, path s0 = path s)); [|done].
    intros c s0 Hp.
    destruct (getitem (visited s0) c) as [v| |] eqn:?; simpl; [|done|within].
    destruct v; simpl; [split; [done | by intros s' [= <-]]|].
    destruct (lookup2 m cur c) as [d| |] eqn:?; simpl; [|done|within].
    destruct (test _ _); [|split; [done | by intros s' [= <-]]].
    destruct (setitem (visited s0) c true) as [vis1| |] eqn:?; simpl;
      [|done|within].
    destruct (backtrack_with test m n start fuel _ _) as [s2| |] eqn:Hs2;
      simpl; [|done|].
    + apply backtrack_with_frame in Hs2 as [Hp2 Hv2]. simpl in Hp2.
      rewrite Hp2, pop_snoc. simpl.
      destruct (setitem (visited s2) c false) eqn:?; simpl; [|done|within].
      split; [done|]. by intros s' [= <-].
    + destruct (IH (cd + d) (SearchState (path s0 ++ [c]) vis1
                   (best_distance s0) (best_path s0))); [| |done].
      * simpl. unfold py_len in *. rewrite length_app, Hp. simpl. lia.
      * simpl. unfold py_len in *. rewrite length_app, Hp. simpl. lia.
Qed.

(** The budget [tsp_branch_and_bound] gives its search is enough on every
    input. *)
Lemma solve_with_total (test : Z → distance → bool) (m : matrix) (start : Z) :
  solve_with test (length m) m start ≠ OutOfFuel.
Proof.
  unfold solve_with.
  destruct (setitem (replicate (length m) false) start true) as [vis| |] eqn:Hset;
    simpl; [|done|within].
  apply setitem_Ok in Hset as [Hstart _].
  unfold py_len in Hstart. rewrite length_replicate in Hstart.
  pose proof (backtrack_with_total test m (py_len m) start (length m) 0
                (SearchState [start] vis Inf [])) as Htotal.
  destruct (backtrack_with _ _ _ _ _ _ _); simpl; [done..|].
  destruct Htotal; unfold py_len; simpl; lia || done.
Qed.

(** ** Tours *)

Lemma others_perm (n start : Z) :
  0 ≤ start < n → start :: others n start ≡ₚ range n.
Proof.
  intros Hs. unfold others. apply NoDup_Permutation.
  - constructor; [|apply NoDup_filter, NoDup_range].
    rewrite list_elem_of_filter. by intros [? _].
  - apply NoDup_range.
  - intros j. rewrite elem_of_cons, list_elem_of_filter, !elem_of_range.
    destruct (decide (j = start)) as [->|]; [tauto|]. tauto.
Qed.

Lemma others_iff (n start : Z) (q : list Z) :
  0 ≤ start < n → norm n start :: q ≡ₚ range n ↔ q ≡ₚ others n start.
Proof.
  intros Hs. rewrite norm_id by lia. rewrite <- (others_perm n start Hs). split.
  - apply Permutation_cons_inv.
  - by intros ->.
Qed.

Lemma closed_tour_valid (m : matrix) (start : Z) (q : list Z) :
  start :: q ≡ₚ range (py_len m) →
  tour_valid (length m) start (start :: q ++ [start]).
Proof.
  intros Hperm. pose proof (Permutation_length Hperm) as Hlen.
  rewrite range_length in Hlen by (unfold py_len; lia).
  unfold py_len in Hlen. rewrite Nat2Z.id in Hlen.
  split; [|split; [done|split]].
  - change (start :: q ++ [start]) with ((start :: q) ++ [start]).
    rewrite length_app, Hlen. simpl. lia.
  - change (start :: q ++ [start]) with ((start :: q) ++ [start]).
    apply last_snoc.
  - change (start :: q ++ [start]) with ((start :: q) ++ [start]).
    assert (take (length m) ((start :: q) ++ [start]) = start :: q) as ->
      by (rewrite <- Hlen; apply take_app_length).
    exact Hperm.
Qed.

Lemma getitem_norm {A : Type} (l : list A) (i : Z) :
  - py_len l ≤ i < py_len l → getitem l i = getitem l (norm (py_len l) i).
Proof.
  intros Hi. destruct (getitem_valid l i Hi) as [x Hx]. rewrite Hx.
  apply getitem_Ok in Hx as [_ Hx]. symmetry. apply getitem_nonneg; [|done].
  pose proof (norm_range _ _ Hi). lia.
Qed.

Lemma edge_norm (m : matrix) (a b : Z) :
  square m → - py_len m ≤ a < py_len m → - py_len m ≤ b < py_len m →
  edge m a b = edge m (norm (py_len m) a) (norm (py_len m) b).
Proof.
  intros Hsq Ha Hb. unfold edge, lookup2. rewrite <- (getitem_norm m a Ha).
  destruct (getitem_valid m a Ha) as [row Hrow]. rewrite Hrow. simpl.
  pose proof (square_row _ _ _ Hsq Hrow) as Hlen.
  rewrite <- Hlen in Hb |- *. by rewrite <- (getitem_norm row b Hb).
Qed.

Lemma path_length_norm (m : matrix) (p : list Z) :
  square m → Forall (λ a, - py_len m ≤ a < py_len m) p →
  path_length m p = path_length m (norm (py_len m) <$> p).
Proof.
  intros Hsq. induction 1 as [|a p Ha Hp IH]; [done|].
  destruct Hp as [|b p Hb Hp]; [done|].
  change (path_length m (a :: b :: p))
    with (edge m a b + path_length m (b :: p)).
  rewrite IH, (edge_norm m a b) by done. by rewrite !fmap_cons.
Qed.

Lemma fmap_norm_id (n : Z) (q : list Z) :
  Forall (λ j, 0 ≤ j) q → norm n <$> q = q.
Proof.
  induction 1 as [|x l Hx _ IH]; [done|]. by rewrite fmap_cons, IH, norm_id.
Qed.

(** A tour from a start index given from the end has the length of the tour
    from the position that index designates. *)
Lemma tour_length_norm (m : matrix) (start : Z) (q : list Z) :
  square m → - py_len m ≤ start < py_len m →
  norm (py_len m) start :: q ≡ₚ range (py_len m) →
  path_length m (start :: q ++ [start]) =
    path_length m (norm (py_len m) start :: q ++ [norm (py_len m) start]).
Proof.
  intros Hsq Hstart Hperm.
  assert (Forall (λ j, 0 ≤ j < py_len m) q) as Hq.
  { apply Forall_forall. intros j Hj. apply elem_of_range.
    rewrite <- Hperm. by right. }
  rewrite path_length_norm; [|done|].
  - rewrite fmap_cons, fmap_app, fmap_norm_id; [done|].
    eapply Forall_impl; [exact Hq|]. simpl. lia.
  - constructor; [done|]. apply Forall_app. split; [|by constructor].
    eapply Forall_impl; [exact Hq|]. simpl. lia.
Qed.

(** ** Results on the script's data *)

Example greedy_four_cities : tsp_greedy four_cities 0 = Ok ([0; 1; 3; 2; 0], 80).
Proof. reflexivity. Qed.

Example branch_and_bound_four_cities :
  tsp_branch_and_bound four_cities 0 = Ok ([0; 1; 3; 2; 0], Fin 80).
Proof. reflexivity. Qed.

Example exhaustive_four_cities :
  tsp_exhaustive four_cities 0 = Ok ([0; 1; 3; 2; 0], Fin 80).
Proof. reflexivity. Qed.

Example greedy_hyderabad :
  tsp_greedy distance_matrix 0 = Ok ([0; 4; 1; 2; 3; 6; 9; 5; 8; 7; 0], 72).
Proof. vm_compute. reflexivity. Qed.

Example branch_and_bound_hyderabad :
  tsp_branch_and_bound distance_matrix 0 =
    Ok ([0; 2; 1; 5; 7; 8; 9; 6; 3; 4; 0], Fin 71).
Proof. vm_compute. reflexivity. Qed.

Example single_city : tsp_branch_and_bound [[0]] 0 = Ok ([0; 0], Fin 0).
Proof. reflexivity. Qed.

Lemma four_cities_square : square four_cities.
Proof. repeat constructor. Qed.

Lemma four_cities_nonneg : nonneg four_cities.
Proof. repeat first [lia | constructor]. Qed.

(** ** Properties of the solvers *)

(** C1.  Over a square matrix without negative entries and from a start in
    [0, n), [tsp_branch_and_bound] returns the closed tour through some
    permutation of the other locations together with its length, and no
    permutation of the other locations gives a shorter closed tour: the
    distance returned is the minimum over all of them. *)
Theorem branch_and_bound_optimal (m : matrix) (start : Z) :
  square m → nonneg m → 0 ≤ start < py_len m →
  ∃ q d,
    tsp_branch_and_bound m start = Ok (start :: q ++ [start], Fin d) ∧
    q ≡ₚ others (py_len m) start ∧
    d = path_length m (start :: q ++ [start]) ∧
    (∀ q', q' ≡ₚ others (py_len m) start →
           d ≤ path_length m (start :: q' ++ [start])).
Proof.
  intros Hsq Hnn Hstart.
  destruct (solve_with_spec pruning_test (length m) m start
              (λ _, eq_refl) Hsq ltac:(lia) (le_n _))
    as (q & Hrun & Hperm & Hmin).
  exists q, (closing_cost m start q start).
  split; [done|]. split; [by apply others_iff|].
  split; [by rewrite tour_length_closing|].
  intros q' Hq'. rewrite tour_length_closing.
  apply Hmin; [by apply pruning_test_sound | by apply others_iff].
Qed.

Lemma branch_and_bound_optimal_witness :
  square four_cities ∧ nonneg four_cities ∧ 0 ≤ 0 < py_len four_cities ∧
  ∃ q d,
    tsp_branch_and_bound four_cities 0 = Ok (0 :: q ++ [0], Fin d) ∧
    q ≡ₚ others (py_len four_cities) 0 ∧
    d = path_length four_cities (0 :: q ++ [0]) ∧
    (∀ q', q' ≡ₚ others (py_len four_cities) 0 →
           d ≤ path_length four_cities (0 :: q' ++ [0])).
Proof.
  split; [apply four_cities_square|]. split; [apply four_cities_nonneg|].
  split; [unfold py_len; simpl; lia|].
  apply (branch_and_bound_optimal four_cities 0).
  - apply four_cities_square.
  - apply four_cities_nonneg.
  - unfold py_len. simpl. lia.
Defined.

(** C2.  Over a square matrix and from a start in [0, n), the distance each
    solver reports is the sum of [distance_matrix[path[k]][path[k+1]]] for
    [k] in [range(n)], recomputed from the path it returns. *)
Theorem total_distance_round_trip (m : matrix) (start : Z) :
  square m → 0 ≤ start < py_len m →
  (∃ p d, tsp_greedy m start = Ok (p, d) ∧ recompute m p = Ok d) ∧
  (∃ p d, tsp_branch_and_bound m start = Ok (p, Fin d) ∧ recompute m p = Ok d).
Proof.
  intros Hsq Hstart. assert (- py_len m ≤ start < py_len m) as Hvalid by lia.
  split.
  - destruct (tsp_greedy_spec m start Hsq Hvalid)
      as (st & q & _ & Hq & Hperm & Htotal & Hrun).
    eexists _, _. split; [exact Hrun|].
    rewrite Hq, Htotal. by apply recompute_closed_tour.
  - destruct (solve_with_spec pruning_test (length m) m start
                (λ _, eq_refl) Hsq Hvalid (le_n _))
      as (q & Hrun & Hperm & _).
    eexists _, _. split; [exact Hrun|].
    rewrite <- tour_length_closing. by apply recompute_closed_tour.
Qed.

Lemma total_distance_round_trip_witness :
  square four_cities ∧ 0 ≤ 0 < py_len four_cities ∧
  (∃ p d, tsp_greedy four_cities 0 = Ok (p, d) ∧
          recompute four_cities p = Ok d) ∧
  (∃ p d, tsp_branch_and_bound four_cities 0 = Ok (p, Fin d) ∧
          recompute four_cities p = Ok d).
Proof.
  split; [apply four_cities_square|].
  split; [unfold py_len; simpl; lia|].
  apply (total_distance_round_trip four_cities 0).
  - apply four_cities_square.
  - unfold py_len. simpl. lia.
Defined.

(** C3.  Over a square matrix of size [n] and from a start in [0, n), both
    solvers return a path of [n + 1] entries that starts and ends at [start]
    and whose first [n] entries hold every location of [0, n) exactly
    once. *)
Theorem tours_valid (m : matrix) (start : Z) :
  square m → 0 ≤ start < py_len m →
  (∃ p d, tsp_greedy m start = Ok (p, d) ∧ tour_valid (length m) start p) ∧
  (∃ p d, tsp_branch_and_bound m start = Ok (p, d) ∧
          tour_valid (length m) start p).
Proof.
  intros Hsq Hstart. assert (- py_len m ≤ start < py_len m) as Hvalid by lia.
  split.
  - destruct (tsp_greedy_spec m start Hsq Hvalid)
      as (st & q & _ & Hq & Hperm & _ & Hrun).
    eexists _, _. split; [exact Hrun|]. rewrite Hq.
    apply closed_tour_valid. by rewrite norm_id in Hperm by lia.
  - destruct (solve_with_spec pruning_test (length m) m start
                (λ _, eq_refl) Hsq Hvalid (le_n _))
      as (q & Hrun & Hperm & _).
    eexists _, _. split; [exact Hrun|].
    apply closed_tour_valid. by rewrite norm_id in Hperm by lia.
Qed.

Lemma tours_valid_witness :
  square four_cities ∧ 0 ≤ 0 < py_len four_cities ∧
  (∃ p d, tsp_greedy four_cities 0 = Ok (p, d) ∧
          tour_valid (length four_cities) 0 p) ∧
  (∃ p d, tsp_branch_and_bound four_cities 0 = Ok (p, d) ∧
          tour_valid (length four_cities) 0 p).
Proof.
  split; [apply four_cities_square|].
  split; [unfold py_len; simpl; lia|].
  apply (tours_valid four_cities 0).
  - apply four_cities_square.
  - unfold py_len. simpl. lia.
Defined.

(** C4.  Over a square matrix without negative entries and from a start in
    [0, n), the search with the pruning test and the same search with the
    test removed return the same total distance. *)
Theorem pruning_preserves_distance (m : matrix) (start : Z) :
  square m → nonneg m → 0 ≤ start < py_len m →
  ∃ p p' d,
    tsp_branch_and_bound m start = Ok (p, Fin d) ∧
    tsp_exhaustive m start = Ok (p', Fin d).
Proof.
  intros Hsq Hnn Hstart.
  destruct (solve_with_spec pruning_test (length m) m start
              (λ _, eq_refl) Hsq ltac:(lia) (le_n _))
    as (q & Hrun & Hperm & Hmin).
  destruct (solve_with_spec no_test (length m) m start
              (λ _, eq_refl) Hsq ltac:(lia) (le_n _))
    as (q' & Hrun' & Hperm' & Hmin').
  specialize (Hmin (pruning_test_sound m Hnn) q' Hperm').
  specialize (Hmin' (no_test_sound m) q Hperm).
  exists (start :: q ++ [start]), (start :: q' ++ [start]),
    (closing_cost m start q start).
  split; [done|]. unfold tsp_exhaustive. rewrite Hrun'.
  do 3 f_equal. lia.
Qed.

Lemma pruning_preserves_distance_witness :
  square four_cities ∧ nonneg four_cities ∧ 0 ≤ 0 < py_len four_cities ∧
  ∃ p p' d,
    tsp_branch_and_bound four_cities 0 = Ok (p, Fin d) ∧
    tsp_exhaustive four_cities 0 = Ok (p', Fin d).
Proof.
  split; [apply four_cities_square|]. split; [apply four_cities_nonneg|].
  split; [unfold py_len; simpl; lia|].
  apply (pruning_preserves_distance four_cities 0).
  - apply four_cities_square.
  - apply four_cities_nonneg.
  - unfold py_len. simpl. lia.
Defined.

(** C5.  Over a square matrix without negative entries and from a start in
    [0, n), the distance returned by [tsp_branch_and_bound] is at most the
    distance returned by [tsp_greedy]. *)
Theorem branch_and_bound_le_greedy (m : matrix) (start : Z) :
  square m → nonneg m → 0 ≤ start < py_len m →
  ∃ p d p' d',
    tsp_branch_and_bound m start = Ok (p, Fin d) ∧
    tsp_greedy m start = Ok (p', d') ∧
    d ≤ d'.
Proof.
  intros Hsq Hnn Hstart. assert (- py_len m ≤ start < py_len m) as Hvalid by lia.
  destruct (solve_with_spec pruning_test (length m) m start
              (λ _, eq_refl) Hsq Hvalid (le_n _))
    as (q & Hrun & Hperm & Hmin).
  destruct (tsp_greedy_spec m start Hsq Hvalid)
    as (st & q' & _ & Hq' & Hperm' & Htotal & Hrun').
  eexists _, _, _, _. split; [exact Hrun|]. split; [exact Hrun'|].
  rewrite Htotal, tour_length_closing.
  by apply Hmin; [apply pruning_test_sound|].
Qed.

Lemma branch_and_bound_le_greedy_witness :
  square four_cities ∧ nonneg four_cities ∧ 0 ≤ 0 < py_len four_cities ∧
  ∃ p d p' d',
    tsp_branch_and_bound four_cities 0 = Ok (p, Fin d) ∧
    tsp_greedy four_cities 0 = Ok (p', d') ∧
    d ≤ d'.
Proof.
  split; [apply four_cities_square|]. split; [apply four_cities_nonneg|].
  split; [unfold py_len; simpl; lia|].
  apply (branch_and_bound_le_greedy four_cities 0).
  - apply four_cities_square.
  - apply four_cities_nonneg.
  - unfold py_len. simpl. lia.
Defined.

(** C6.  Over a square matrix and from a start in [0, n), [tsp_greedy] makes
    exactly [n - 1] selection steps, each choosing the unvisited location
    nearest to the current one and, among several at that distance, the one
    of lowest index, appending it to the path, adding its edge to the
    running total and making it the current location; it then appends
    [start] and adds the closing edge. *)
Theorem greedy_nearest_neighbour (m : matrix) (start : Z) :
  square m → 0 ≤ start < py_len m →
  ∃ st,
    selections m (py_len m) (Z.to_nat (py_len m - 1))
      (GreedyState [start]
         (<[Z.to_nat start := true]> (replicate (length m) false)) 0 start)
      st ∧
    tsp_greedy m start =
      Ok (g_path st ++ [start], g_total st + edge m (g_current st) start).
Proof.
  intros Hsq Hstart. assert (- py_len m ≤ start < py_len m) as Hvalid by lia.
  destruct (tsp_greedy_spec m start Hsq Hvalid)
    as (st & q & Hsel & _ & _ & _ & Hrun).
  exists st. split; [|done].
  unfold greedy_init in Hsel. by rewrite norm_id in Hsel by lia.
Qed.

Lemma greedy_nearest_neighbour_witness :
  square four_cities ∧ 0 ≤ 0 < py_len four_cities ∧
  ∃ st,
    selections four_cities (py_len four_cities)
      (Z.to_nat (py_len four_cities - 1))
      (GreedyState [0]
         (<[Z.to_nat 0 := true]> (replicate (length four_cities) false)) 0 0)
      st ∧
    tsp_greedy four_cities 0 =
      Ok (g_path st ++ [0], g_total st + edge four_cities (g_current st) 0).
Proof.
  split; [apply four_cities_square|].
  split; [unfold py_len; simpl; lia|].
  apply (greedy_nearest_neighbour four_cities 0).
  - apply four_cities_square.
  - unfold py_len. simpl. lia.
Defined.

(** C7, as the code has it.  Both solvers raise [IndexError] whenever
    [start] is outside [-n, n), which for the empty matrix is every start;
    the exception comes from the first use of [start],
    [visited[start] = True], before any search step. *)
Theorem invalid_start_raises (m : matrix) (start : Z) :
  ¬ (- py_len m ≤ start < py_len m) →
  setitem (replicate (length m) false) start true = Raise IndexError ∧
  tsp_greedy m start = Raise IndexError ∧
  tsp_branch_and_bound m start = Raise IndexError.
Proof.
  intros Hstart.
  assert (setitem (replicate (length m) false) start true = Raise IndexError)
    as Hset.
  { apply setitem_invalid. unfold py_len in *. by rewrite length_replicate. }
  split; [done|].
  unfold tsp_greedy, tsp_branch_and_bound, solve_with. by rewrite Hset.
Qed.

Lemma invalid_start_raises_witness :
  ¬ (- py_len four_cities ≤ 4 < py_len four_cities) ∧
  setitem (replicate (length four_cities) false) 4 true = Raise IndexError ∧
  tsp_greedy four_cities 4 = Raise IndexError ∧
  tsp_branch_and_bound four_cities 4 = Raise IndexError.
Proof.
  split; [unfold py_len; simpl; lia|].
  apply (invalid_start_raises four_cities 4).
  unfold py_len. simpl. lia.
Defined.

(** C7 as stated fails: the start index [-1] is outside [0, 1), and both
    solvers return a tour for it. *)
Lemma negative_start_not_rejected :
  ¬ (0 ≤ -1 < py_len [[0]]) ∧
  tsp_greedy [[0]] (-1) = Ok ([-1; -1], 0) ∧
  tsp_branch_and_bound [[0]] (-1) = Ok ([-1; -1], Fin 0).
Proof. split; [unfold py_len; simpl; lia|]. split; reflexivity. Qed.

(** The empty matrix is rejected with the same [IndexError]. *)
Example empty_matrix_raises :
  tsp_greedy [] 0 = Raise IndexError ∧
  tsp_branch_and_bound [] 0 = Raise IndexError.
Proof. split; reflexivity. Qed.

(** C8.  Over a square matrix and from a start in [0, n), the call of
    [backtrack] that [tsp_branch_and_bound] makes returns with [path] and
    [visited] as they were passed to it, [[start]] and the flags marking
    [start] alone; and at every call made during the search the flags of
    [visited] mark exactly the locations in [path], and the call leaves both
    lists as it received them. *)
Theorem backtrack_restores_state (m : matrix) (start : Z) :
  square m → 0 ≤ start < py_len m →
  ∃ s t,
    backtrack_calls m (py_len m) start (length m) 0 (search_init m start) =
      Ok (s, t) ∧
    backtrack m (py_len m) start (length m) 0 (search_init m start) = Ok s ∧
    tsp_branch_and_bound m start = Ok (best_path s ++ [start], best_distance s) ∧
    path s = [start] ∧
    visited s = <[Z.to_nat start := true]> (replicate (length m) false) ∧
    call_path t = [start] ∧
    Forall (λ c, marks (py_len m) (call_path c) (call_visited c) ∧
                 call_exit_path c = call_path c ∧
                 call_exit_visited c = call_visited c) (all_calls t).
Proof.
  intros Hsq Hstart.
  destruct (search_calls m start Hsq Hstart)
    as (s & t & Hcalls & Hrun & Hp & Hv & Hcp & _ & Hok & _).
  exists s, t. do 2 (split; [done|]).
  split.
  { unfold tsp_branch_and_bound. rewrite solve_with_init by lia.
    unfold backtrack in Hrun. by rewrite Hrun. }
  split; [done|].
  split; [rewrite Hv; simpl; by rewrite norm_id by lia|]. split; [done|].
  eapply Forall_impl; [exact Hok|]. by intros c (? & [? ?] & _).
Qed.

Lemma backtrack_restores_state_witness :
  square four_cities ∧ 0 ≤ 0 < py_len four_cities ∧
  ∃ s t,
    backtrack_calls four_cities (py_len four_cities) 0 (length four_cities) 0
      (search_init four_cities 0) = Ok (s, t) ∧
    backtrack four_cities (py_len four_cities) 0 (length four_cities) 0
      (search_init four_cities 0) = Ok s ∧
    tsp_branch_and_bound four_cities 0 =
      Ok (best_path s ++ [0], best_distance s) ∧
    path s = [0] ∧
    visited s = <[Z.to_nat 0 := true]> (replicate (length four_cities) false) ∧
    call_path t = [0] ∧
    Forall (λ c, marks (py_len four_cities) (call_path c) (call_visited c) ∧
                 call_exit_path c = call_path c ∧
                 call_exit_visited c = call_visited c) (all_calls t).
Proof.
  split; [apply four_cities_square|].
  split; [unfold py_len; simpl; lia|].
  apply (backtrack_restores_state four_cities 0).
  - apply four_cities_square.
  - unfold py_len. simpl. lia.
Defined.

(** C9.  Over a square matrix of size [n >= 1] and from a start in [0, n),
    the search of [tsp_branch_and_bound] returns: a budget of [n] nested
    calls is enough, and any larger budget gives the same final state.  The
    calls are nested at most [n] deep; every call receives a path of at most
    [n] entries and makes at most [n] calls, each on a path one entry longer,
    so [n - len(path)] decreases strictly from a call to the calls it
    makes. *)
Theorem backtrack_terminates (m : matrix) (start : Z) :
  square m → 0 ≤ start < py_len m →
  ∃ s t,
    backtrack_calls m (py_len m) start (length m) 0 (search_init m start) =
      Ok (s, t) ∧
    (∀ fuel, (length m ≤ fuel)%nat →
       backtrack m (py_len m) start fuel 0 (search_init m start) = Ok s) ∧
    tsp_branch_and_bound m start = Ok (best_path s ++ [start], best_distance s) ∧
    (call_depth t ≤ length m)%nat ∧
    Forall (λ c, (length (call_path c) ≤ length m)%nat ∧
                 (length (call_children c) ≤ length m)%nat ∧
                 Forall (λ c', length (call_path c') = S (length (call_path c)))
                   (call_children c)) (all_calls t).
Proof.
  intros Hsq Hstart.
  destruct (search_calls m start Hsq Hstart)
    as (s & t & Hcalls & Hrun & _ & _ & _ & _ & Hok & Hdepth).
  exists s, t. split; [done|]. split.
  { intros fuel Hfuel. unfold backtrack in *.
    by apply (backtrack_with_more_fuel _ _ _ _ (length m)). }
  split.
  { unfold tsp_branch_and_bound. rewrite solve_with_init by lia.
    unfold backtrack in Hrun. by rewrite Hrun. }
  split; [done|]. eapply Forall_impl; [exact Hok|].
  intros c (_ & _ & Hlen & Hchildren & Hpaths).
  unfold py_len in Hlen, Hchildren. rewrite Nat2Z.id in Hlen, Hchildren.
  do 2 (split; [done|]). eapply Forall_impl; [exact Hpaths|].
  intros c' (x & -> & _). rewrite length_app. simpl. lia.
Qed.

Lemma backtrack_terminates_witness :
  square four_cities ∧ 0 ≤ 0 < py_len four_cities ∧
  ∃ s t,
    backtrack_calls four_cities (py_len four_cities) 0 (length four_cities) 0
      (search_init four_cities 0) = Ok (s, t) ∧
    (∀ fuel, (length four_cities ≤ fuel)%nat →
       backtrack four_cities (py_len four_cities) 0 fuel 0
         (search_init four_cities 0) = Ok s) ∧
    tsp_branch_and_bound four_cities 0 =
      Ok (best_path s ++ [0], best_distance s) ∧
    (call_depth t ≤ length four_cities)%nat ∧
    Forall (λ c, (length (call_path c) ≤ length four_cities)%nat ∧
                 (length (call_children c) ≤ length four_cities)%nat ∧
                 Forall (λ c', length (call_path c') = S (length (call_path c)))
                   (call_children c)) (all_calls t).
Proof.
  split; [apply four_cities_square|].
  split; [unfold py_len; simpl; lia|].
  apply (backtrack_terminates four_cities 0).
  - apply four_cities_square.
  - unfold py_len. simpl. lia.
Defined.

(** C10.  Over a square matrix of size [n >= 1] and from a negative start in
    [-n, -1], both solvers return without an exception.  The path has
    [n + 1] entries and starts and ends with the negative [start] itself;
    between them it visits every location but [n + start] exactly once, and
    the distance is that of the closed tour from location [n + start]. *)
Theorem negative_start_wraps (m : matrix) (start : Z) :
  square m → - py_len m ≤ start < 0 →
  (∃ q d,
     tsp_greedy m start = Ok (start :: q ++ [start], d) ∧
     length (start :: q ++ [start]) = S (length m) ∧
     (start + py_len m) :: q ≡ₚ range (py_len m) ∧
     d = path_length m ((start + py_len m) :: q ++ [start + py_len m])) ∧
  (∃ q d,
     tsp_branch_and_bound m start = Ok (start :: q ++ [start], Fin d) ∧
     length (start :: q ++ [start]) = S (length m) ∧
     (start + py_len m) :: q ≡ₚ range (py_len m) ∧
     d = path_length m ((start + py_len m) :: q ++ [start + py_len m])).
Proof.
  intros Hsq Hstart. assert (- py_len m ≤ start < py_len m) as Hvalid by lia.
  assert (norm (py_len m) start = start + py_len m) as Hnorm.
  { unfold norm. case_bool_decide; lia. }
  assert (∀ q, start + py_len m :: q ≡ₚ range (py_len m) →
               length (start :: q ++ [start]) = S (length m)) as Hlength.
  { intros q Hperm. apply Permutation_length in Hperm.
    rewrite range_length in Hperm by (unfold py_len; lia).
    simpl in *. rewrite length_app. simpl. unfold py_len in Hperm. lia. }
  split.
  - destruct (tsp_greedy_spec m start Hsq Hvalid)
      as (st & q & _ & Hq & Hperm & Htotal & Hrun).
    rewrite Hq in Hrun. exists q. eexists. split; [exact Hrun|].
    rewrite Htotal, (tour_length_norm m start q) by done.
    rewrite Hnorm in *. auto.
  - destruct (solve_with_spec pruning_test (length m) m start
                (λ _, eq_refl) Hsq Hvalid (le_n _))
      as (q & Hrun & Hperm & _).
    exists q. eexists. split; [exact Hrun|].
    rewrite <- tour_length_closing, (tour_length_norm m start q) by done.
    rewrite Hnorm in *. auto.
Qed.

Lemma negative_start_wraps_witness :
  square four_cities ∧ - py_len four_cities ≤ -2 < 0 ∧
  (∃ q d,
     tsp_greedy four_cities (-2) = Ok (-2 :: q ++ [-2], d) ∧
     length (-2 :: q ++ [-2]) = S (length four_cities) ∧
     (-2 + py_len four_cities) :: q ≡ₚ range (py_len four_cities) ∧
     d = path_length four_cities
           ((-2 + py_len four_cities) :: q ++ [-2 + py_len four_cities])) ∧
  (∃ q d,
     tsp_branch_and_bound four_cities (-2) = Ok (-2 :: q ++ [-2], Fin d) ∧
     length (-2 :: q ++ [-2]) = S (length four_cities) ∧
     (-2 + py_len four_cities) :: q ≡ₚ range (py_len four_cities) ∧
     d = path_length four_cities
           ((-2 + py_len four_cities) :: q ++ [-2 + py_len four_cities])).
Proof.
  split; [apply four_cities_square|].
  split; [unfold py_len; simpl; lia|].
  apply (negative_start_wraps four_cities (-2)).
  - apply four_cities_square.
  - unfold py_len. simpl. lia.
Defined.

Example greedy_negative_start :
  tsp_greedy four_cities (-2) = Ok ([-2; 0; 1; 3; -2], 80).
Proof. reflexivity. Qed.

Example branch_and_bound_negative_start :
  tsp_branch_and_bound four_cities (-2) = Ok ([-2; 0; 1; 3; -2], Fin 80).
Proof. reflexivity. Qed.

(** ** Which of several shortest tours is returned *)

Lemma lex_le_refl (a : list Z) : lex_le a a.
Proof. induction a as [|x a IH]; simpl; [done | by right]. Qed.

Lemma lex_le_antisym (a b : list Z) : lex_le a b → lex_le b a → a = b.
Proof.
  revert b. induction a as [|x a IH]; intros [|y b]; simpl; try done.
  intros [Hlt|[-> Hab]] [Hgt|[Heq Hba]]; try lia.
  f_equal. by apply IH.
Qed.

Lemma lt_distance_dle (x : Z) (b b' : distance) :
  lt_distance x b = true → dle b b' → lt_distance x b' = true.
Proof. destruct b, b'; simpl; try done. rewrite !Z.ltb_lt. lia. Qed.

Lemma lt_distance_bound (x y : Z) (b : distance) :
  lt_distance x b = true → dle b (Fin y) → x < y.
Proof. destruct b; simpl; [done|]. rewrite Z.ltb_lt. lia. Qed.

Section first.
Context (test : Z → distance → bool) (m : matrix) (n start : Z).
Hypothesis Htest_inf : ∀ x, test x Inf = true.
Hypothesis Hn : n = py_len m.
Hypothesis Hsq : square m.
Hypothesis Hstart : - n ≤ start < n.
Hypothesis Hsound : sound_test m test.

Lemma first_scanned_nil cd cur s : first_scanned m n start [] cd cur s s.
Proof. by left. Qed.

Lemma first_scanned_cons c l cd cur s s1 s2 :
  Forall (λ c', c < c') l →
  scanned test m n start [c] cd cur s s1 →
  first_scanned m n start [c] cd cur s s1 →
  first_scanned m n start l cd cur s1 s2 →
  first_scanned m n start (c :: l) cd cur s s2.
Proof.
  intros Hlt Hscan F1 F2.
  pose proof (scanned_path _ _ _ _ _ _ _ _ _ Hscan) as Hp1.
  pose proof (scanned_visited _ _ _ _ _ _ _ _ _ Hscan) as Hv1.
  rewrite Forall_forall in Hlt.
  destruct F2 as [[Hd2 Hb2]|(c2 & q2 & Hc2 & Hq2 & Hd2 & Hb2 & Hlt2 & Hlex2)].
  - destruct F1 as [[Hd1 Hb1]|(c1 & q1 & Hc1 & Hq1 & Hd1 & Hb1 & Hlt1 & Hlex1)].
    + left. by rewrite Hd2, Hb2.
    + right. exists c1, q1. apply list_elem_of_singleton in Hc1 as ->.
      split; [by left|]. split; [done|]. split; [by rewrite Hd2|].
      split; [by rewrite Hb2|]. split; [done|].
      intros c' q' [->|Hc']%elem_of_cons Hq' Hcost.
      * apply Hlex1; [by apply list_elem_of_singleton | done..].
      * simpl. left. by apply Hlt.
  - right. exists c2, q2. rewrite Hv1 in Hq2, Hlex2. rewrite Hp1 in Hb2.
    split; [by right|]. do 3 (split; [done|]).
    split; [eapply lt_distance_dle; [exact Hlt2 | apply Hscan]|].
    intros c' q' [->|Hc']%elem_of_cons Hq' Hcost; [|by apply Hlex2].
    pose proof (scanned_bound _ _ _ _ _ _ _ _ _ Hscan Hsound c q') as Hbound.
    rewrite Hcost in Hbound.
    pose proof (lt_distance_bound _ _ _ Hlt2
                  (Hbound ltac:(by apply list_elem_of_singleton) Hq')).
    lia.
Qed.

(** A loop whose body scans one child at a time, in ascending order, leaves
    the first of the shortest completions. *)
Lemma first_loop (body : Z → search_state → res search_state) cd cur p vis :
  (∀ c s, 0 ≤ c < n → path s = p → visited s = vis →
          ∃ s1, body c s = Ok s1 ∧ scanned test m n start [c] cd cur s s1 ∧
                first_scanned m n start [c] cd cur s s1) →
  ∀ l s, StronglySorted Z.lt l → Forall (λ c, 0 ≤ c < n) l →
         path s = p → visited s = vis →
         ∃ s', for_in l body s = Ok s' ∧
               first_scanned m n start l cd cur s s'.
Proof.
  intros Hbody l. induction l as [|c l IH]; intros s Hsorted Hl Hp Hv; simpl.
  - exists s. split; [done | apply first_scanned_nil].
  - apply Forall_cons in Hl as [Hc Hl].
    apply StronglySorted_cons in Hsorted as [Hlt Hsorted].
    destruct (Hbody c s Hc Hp Hv) as (s1 & -> & Hscan & F1). simpl.
    destruct (IH s1 Hsorted Hl) as (s2 & -> & F2).
    + by rewrite (scanned_path _ _ _ _ _ _ _ _ _ Hscan).
    + by rewrite (scanned_visited _ _ _ _ _ _ _ _ _ Hscan).
    + exists s2. split; [done | by eapply first_scanned_cons].
Qed.

Lemma first_explored c cd cur s s' :
  c ∈ unvisited n (visited s) →
  first_found m n start (cd + edge m cur c) c
    (SearchState (path s ++ [c]) (<[Z.to_nat c := true]> (visited s))
       (best_distance s) (best_path s)) s' →
  first_scanned m n start [c] cd cur s
    (SearchState (path s) (visited s) (best_distance s') (best_path s')).
Proof.
  intros Hc F. pose proof (unvisited_mark n (visited s) c Hc) as Hmark.
  destruct F as [?|(q & Hq & Hd & Hb & Hlt & Hlex)]; simpl in *; [by left|].
  assert (∀ q0, cd + closing_cost m cur (c :: q0) start =
                cd + edge m cur c + closing_cost m c q0 start) as Hcost
    by (intros q0; simpl; lia).
  right. exists c, q. split; [by apply list_elem_of_singleton|].
  split; [by rewrite Hmark, Hq|]. rewrite Hcost.
  split; [done|]. split; [by rewrite Hb, <- app_assoc|]. split; [done|].
  intros c' q' ->%list_elem_of_singleton Hq' Hsame.
  rewrite Hmark in Hq'. apply Permutation_cons_inv in Hq'.
  simpl. right. split; [done|]. apply Hlex; [done|]. simpl in Hsame. lia.
Qed.

Lemma backtrack_with_first fuel :
  ∀ cd cur s,
    consistent n (path s) (visited s) → last (path s) = Some cur →
    (length (unvisited n (visited s)) < fuel)%nat →
    ∃ s', backtrack_with test m n start fuel cd s = Ok s' ∧
          first_found m n start cd cur s s'.
Proof.
  induction fuel as [|fuel IH]; intros cd cur s Hc Hl Hf; [lia|].
  assert (0 ≤ n) as Hn0 by (rewrite Hn; unfold py_len; lia).
  assert (- n ≤ cur < n) as Hcur.
  { apply (consistent_valid n _ _ Hc). by apply last_Some_elem_of. }
  simpl. rewrite (getitem_last _ _ Hl). simpl.
  destruct (py_len (path s) =? n) eqn:Hlen.
  - apply Z.eqb_eq in Hlen. rewrite lookup2_edge by (by rewrite <- ?Hn).
    simpl. pose proof (consistent_leaf _ _ _ Hc Hlen) as Hu.
    destruct (lt_distance _ _) eqn:Hlt; eexists; (split; [done|]);
      [|by left].
    right. exists []. rewrite Hu. simpl. rewrite app_nil_r.
    do 4 (split; [done|]). done.
  - apply Z.eqb_neq in Hlen.
    match goal with |- context [for_in _ ?b _] => set (body := b) end.
    assert (∀ c s0, 0 ≤ c < n → path s0 = path s → visited s0 = visited s →
              ∃ s1, body c s0 = Ok s1 ∧
                    scanned test m n start [c] cd cur s0 s1 ∧
                    first_scanned m n start [c] cd cur s0 s1) as Hbody.
    { intros c s0 Hcn Hp0 Hv0. unfold body.
      pose proof Hc as [Hlenv Hperm].
      destruct (lookup_lt_is_Some_2 (visited s) (Z.to_nat c)) as [v Hv];
        [unfold py_len in Hlenv; lia|].
      rewrite Hv0, (getitem_nonneg _ _ v) by (done || lia). simpl.
      destruct v; simpl.
      { exists s0. split; [done|]. split; [|by left].
        apply skip_visited. by rewrite Hv0. }
      assert (c ∈ unvisited n (visited s)) as Hcu by by apply elem_of_unvisited.
      rewrite lookup2_edge by (rewrite <- ?Hn; done || lia). simpl.
      destruct (test _ _) eqn:Ht.
      2:{ exists s0. split; [done|]. split; [by apply skip_pruned | by left]. }
      rewrite setitem_nonneg by lia. simpl. rewrite Hp0.
      pose proof (unvisited_mark n (visited s) c Hcu) as Hmark.
      apply Permutation_length in Hmark. simpl in Hmark.
      assert (consistent n (path s ++ [c])
                (<[Z.to_nat c := true]> (visited s))) as Hcc
        by (by apply consistent_child).
      destruct (backtrack_with_searched test m n start Htest_inf Hn Hsq Hstart
                  fuel (cd + edge m cur c) c
                  (SearchState (path s ++ [c]) (<[Z.to_nat c := true]> (visited s))
                     (best_distance s0) (best_path s0)))
        as (s' & Hs' & Hsearched); simpl; [done | apply last_snoc | lia |].
      destruct (IH (cd + edge m cur c) c
                  (SearchState (path s ++ [c]) (<[Z.to_nat c := true]> (visited s))
                     (best_distance s0) (best_path s0)))
        as (s'' & Hs'' & Hfirst); simpl; [done | apply last_snoc | lia |].
      rewrite Hs' in Hs''. injection Hs'' as <-. rewrite Hs'. simpl.
      rewrite (searched_path _ _ _ _ _ _ _ _ Hsearched),
        (searched_visited _ _ _ _ _ _ _ _ Hsearched).
      simpl. rewrite pop_snoc. simpl.
      rewrite setitem_nonneg by (rewrite py_len_insert; lia). simpl.
      rewrite unmark by done. eexists. split; [done|].
      rewrite <- Hp0, <- Hv0 in Hsearched, Hfirst |- *.
      split; [apply (explored test m n start) | apply first_explored];
        (done || by rewrite Hv0). }
    destruct (first_loop body cd cur (path s) (visited s) Hbody (range n) s)
      as (s' & Hs' & F); try done.
    { apply range_sorted. }
    { apply Forall_forall. intros c. by rewrite elem_of_range. }
    exists s'. split; [done|].
    destruct F as [?|(c & q & Hcl & Hq & Hd & Hb & Hlt & Hlex)]; [by left|].
    right. exists (c :: q). do 4 (split; [done|]).
    intros [|c' q'] Hq' Hcost.
    { rewrite <- Hq in Hq'. by apply Permutation_nil_cons in Hq'. }
    apply Hlex; [|done..].
    assert (c' ∈ unvisited n (visited s)) as Hcu by (rewrite <- Hq'; by left).
    apply elem_of_range. by apply elem_of_unvisited in Hcu as [? _].
Qed.
End first.

Lemma solve_with_first (test : Z → distance → bool) (m : matrix) (start : Z) :
  (∀ x, test x Inf = true) → square m →
  - py_len m ≤ start < py_len m → sound_test m test →
  ∃ q,
    solve_with test (length m) m start =
      Ok (start :: q ++ [start], Fin (closing_cost m start q start)) ∧
    norm (py_len m) start :: q ≡ₚ range (py_len m) ∧
    (∀ q', norm (py_len m) start :: q' ≡ₚ range (py_len m) →
           closing_cost m start q start ≤ closing_cost m start q' start) ∧
    (∀ q', norm (py_len m) start :: q' ≡ₚ range (py_len m) →
           closing_cost m start q' start = closing_cost m start q start →
           lex_le q q').
Proof.
  intros Htest Hsq Hstart Hsound.
  destruct (solve_with_spec test (length m) m start Htest Hsq Hstart (le_n _))
    as (q0 & Hrun0 & Hperm0 & Hmin0).
  pose proof (search_init_consistent m start Hstart) as Hc.
  pose proof (consistent_length _ _ _ Hc) as Hlen.
  cbn [path search_init length] in Hlen.
  destruct (backtrack_with_first test m (py_len m) start Htest eq_refl Hsq
              Hstart Hsound (length m) 0 start (search_init m start) Hc eq_refl)
    as (s' & Hs' & Hfirst); [unfold py_len in *; lia|].
  rewrite solve_with_init, Hs' in Hrun0 by done. simpl in Hrun0.
  injection Hrun0 as Hpath Hdist.
  destruct Hfirst as [[Hd _]|(q & Hq & Hd & Hb & _ & Hlex)];
    [simpl in Hd; congruence|].
  simpl in Hq, Hd, Hb, Hlex. destruct Hc as [_ Hperm]. simpl in Hperm.
  assert (q = q0) as ->.
  { rewrite Hb in Hpath. simpl in Hpath. injection Hpath as Hpath.
    by apply app_inv_tail in Hpath. }
  exists q0. rewrite solve_with_init, Hs' by done. simpl. rewrite Hb, Hd.
  split; [done|]. split; [done|]. split; [by apply Hmin0|].
  intros q' Hq' Hcost. apply Hlex; [|done].
  rewrite <- Hperm in Hq'. by apply Permutation_cons_inv in Hq'.
Qed.

(** X1.  Over a square matrix without negative entries and from a start in
    [0, n), the tour [tsp_branch_and_bound] returns is, among the tours of
    the same length, the first in lexicographic order of the locations
    visited. *)
Theorem branch_and_bound_first_optimum (m : matrix) (start : Z) :
  square m → nonneg m → 0 ≤ start < py_len m →
  ∃ q d,
    tsp_branch_and_bound m start = Ok (start :: q ++ [start], Fin d) ∧
    ∀ q', q' ≡ₚ others (py_len m) start →
          path_length m (start :: q' ++ [start]) = d →
          lex_le q q'.
Proof.
  intros Hsq Hnn Hstart.
  destruct (solve_with_first pruning_test m start (λ _, eq_refl) Hsq
              ltac:(lia) (pruning_test_sound m Hnn))
    as (q & Hrun & _ & _ & Hlex).
  exists q, (closing_cost m start q start). split; [done|].
  intros q' Hq' Hcost. rewrite tour_length_closing in Hcost.
  apply Hlex; [by apply others_iff | done].
Qed.

Lemma branch_and_bound_first_optimum_witness :
  square four_cities ∧ nonneg four_cities ∧ 0 ≤ 0 < py_len four_cities ∧
  ∃ q d,
    tsp_branch_and_bound four_cities 0 = Ok (0 :: q ++ [0], Fin d) ∧
    ∀ q', q' ≡ₚ others (py_len four_cities) 0 →
          path_length four_cities (0 :: q' ++ [0]) = d →
          lex_le q q'.
Proof.
  split; [apply four_cities_square|]. split; [apply four_cities_nonneg|].
  split; [unfold py_len; simpl; lia|].
  apply (branch_and_bound_first_optimum four_cities 0).
  - apply four_cities_square.
  - apply four_cities_nonneg.
  - unfold py_len. simpl. lia.
Defined.

(** X2.  Over a square matrix without negative entries and from a start in
    [0, n), pruning changes nothing of the result: [tsp_branch_and_bound]
    returns the very tour, path and distance, that the search without the
    pruning test returns. *)
Theorem pruning_preserves_tour (m : matrix) (start : Z) :
  square m → nonneg m → 0 ≤ start < py_len m →
  ∃ r, tsp_branch_and_bound m start = Ok r ∧ tsp_exhaustive m start = Ok r.
Proof.
  intros Hsq Hnn Hstart.
  destruct (solve_with_first pruning_test m start (λ _, eq_refl) Hsq
              ltac:(lia) (pruning_test_sound m Hnn))
    as (q & Hrun & Hperm & Hmin & Hlex).
  destruct (solve_with_first no_test m start (λ _, eq_refl) Hsq
              ltac:(lia) (no_test_sound m))
    as (q' & Hrun' & Hperm' & Hmin' & Hlex').
  assert (closing_cost m start q start = closing_cost m start q' start) as Hcost.
  { specialize (Hmin q' Hperm'). specialize (Hmin' q Hperm). lia. }
  assert (q = q') as <-.
  { apply lex_le_antisym; [apply Hlex | apply Hlex']; done. }
  eexists. split; [exact Hrun | exact Hrun'].
Qed.

Lemma pruning_preserves_tour_witness :
  square four_cities ∧ nonneg four_cities ∧ 0 ≤ 0 < py_len four_cities ∧
  ∃ r, tsp_branch_and_bound four_cities 0 = Ok r ∧
       tsp_exhaustive four_cities 0 = Ok r.
Proof.
  split; [apply four_cities_square|]. split; [apply four_cities_nonneg|].
  split; [unfold py_len; simpl; lia|].
  apply (pruning_preserves_tour four_cities 0).
  - apply four_cities_square.
  - apply four_cities_nonneg.
  - unfold py_len. simpl. lia.
Defined.

(** ** The only exception is [IndexError] *)

Lemma index_error_only_cases {A : Type} (r : res A) :
  index_error_only r ↔ (∃ a, r = Ok a) ∨ r = Raise IndexError.
Proof.
  destruct r as [a|[]|]; simpl; split; try done; eauto.
  - intros [[? ?]|?]; done.
  - intros [[? ?]|?]; done.
Qed.

Lemma index_error_only_bind {A B : Type} (r : res A) (k : A → res B) :
  index_error_only r → (∀ a, r = Ok a → index_error_only (k a)) →
  index_error_only (do a <~ r ;; k a).
Proof. destruct r as [a|[]|]; simpl; auto. Qed.

Lemma getitem_index_error_only {A : Type} (l : list A) (i : Z) :
  index_error_only (getitem l i).
Proof. unfold getitem. destruct (py_index _ _); [by destruct (l !! _) | done]. Qed.

Lemma setitem_index_error_only {A : Type} (l : list A) (i : Z) (x : A) :
  index_error_only (setitem l i x).
Proof. unfold setitem. by destruct (py_index _ _). Qed.

Lemma lookup2_index_error_only (m : matrix) (i j : Z) :
  index_error_only (lookup2 m i j).
Proof.
  unfold lookup2. apply index_error_only_bind; intros;
    apply getitem_index_error_only.
Qed.

Lemma pop_index_error_only {A : Type} (l : list A) : index_error_only (pop l).
Proof. by destruct l. Qed.

Lemma for_in_index_error_only {S : Type} (I : S → Prop) (l : list Z)
    (body : Z → S → res S) :
  (∀ c s, I s → index_error_only (body c s) ∧
                ∀ s', body c s = Ok s' → I s') →
  ∀ s, I s → index_error_only (for_in l body s).
Proof.
  intros Hbody. induction l as [|c l IH]; intros s Hs; simpl; [done|].
  destruct (Hbody c s Hs) as [Honly Hok].
  apply index_error_only_bind; [done|]. intros s' Hs'. apply IH. by apply Hok.
Qed.

Lemma min_scan_in (l : list (Z * Z)) (x : Z * Z) : min_scan x l ∈ x :: l.
Proof.
  revert x. induction l as [|y l IH]; intros x; simpl; [by left|].
  specialize (IH (if y.1 <? x.1 then y else x)).
  apply elem_of_cons in IH as [->|IH]; [|by do 2 right].
  destruct (y.1 <? x.1); [right | ]; by left.
Qed.

(** Whatever the matrix, the candidates of a selection step, when the
    comprehension completes, are the unvisited locations among [js]. *)
Lemma candidates_unvisited (m : matrix) (vis : list bool) (cur : Z) (js : list Z) :
  Forall (λ j, 0 ≤ j < py_len vis) js →
  index_error_only (candidates m vis cur js) ∧
  ∀ cands, candidates m vis cur js = Ok cands →
           cands.*2 = filter (λ j, vis !! Z.to_nat j = Some false) js.
Proof.
  induction 1 as [|j js Hj _ [IHonly IHok]]; [split; [done | by intros ? [= <-]]|].
  simpl. destruct (lookup_lt_is_Some_2 vis (Z.to_nat j)) as [v Hv];
    [unfold py_len in *; lia|].
  rewrite (getitem_nonneg _ _ v) by (done || lia). simpl.
  rewrite filter_cons. destruct v; simpl.
  - by rewrite decide_False by congruence.
  - rewrite decide_True by done.
    pose proof (lookup2_index_error_only m cur j) as Hd.
    destruct (lookup2 m cur j) as [d|[]|]; simpl in *; try done.
    destruct (candidates m vis cur js) as [rest|[]|]; simpl in *; try done.
    split; [done|]. intros cands [= <-]. rewrite fmap_cons. simpl.
    f_equal. by apply IHok.
Qed.

(** Whatever the matrix, a selection step that has an unvisited location left
    either raises [IndexError] or marks one more location. *)
Lemma greedy_step_index_error_only (m : matrix) (n : Z) (st : greedy_state) :
  py_len (g_visited st) = n → unvisited n (g_visited st) ≠ [] →
  index_error_only (greedy_step m n st) ∧
  ∀ st', greedy_step m n st = Ok st' →
         py_len (g_visited st') = n ∧
         S (length (unvisited n (g_visited st'))) =
           length (unvisited n (g_visited st)).
Proof.
  intros Hlen Hne. unfold greedy_step.
  destruct (candidates_unvisited m (g_visited st) (g_current st) (range n))
    as [Honly Hok].
  { apply Forall_forall. intros j. rewrite Hlen. by rewrite elem_of_range. }
  destruct (candidates _ _ _ _) as [cands|[]|]; simpl in *; try done.
  specialize (Hok cands eq_refl). fold (unvisited n (g_visited st)) in Hok.
  destruct cands as [|x cands]; [by rewrite <- Hok in Hne|]. simpl.
  assert ((min_scan x cands).2 ∈ unvisited n (g_visited st)) as Hnext.
  { rewrite <- Hok. apply list_elem_of_fmap_2, min_scan_in. }
  set (next_city := (min_scan x cands).2) in *.
  pose proof Hnext as [Hrange _]%elem_of_unvisited.
  pose proof (lookup2_index_error_only m (g_current st) next_city) as Hd.
  destruct (lookup2 _ _ _) as [d|[]|]; simpl in *; try done.
  rewrite setitem_nonneg by lia. simpl. split; [done|].
  intros st' [= <-]. simpl. split; [by rewrite py_len_insert|].
  pose proof (unvisited_mark n _ _ Hnext) as Hmark.
  apply Permutation_length in Hmark. simpl in Hmark. lia.
Qed.

Lemma greedy_loop_index_error_only (m : matrix) (n : Z) (l : list Z) :
  ∀ st, py_len (g_visited st) = n →
        (length l ≤ length (unvisited n (g_visited st)))%nat →
        index_error_only (for_in l (λ _, greedy_step m n) st).
Proof.
  induction l as [|i l IH]; intros st Hlen Hle; simpl; [done|].
  destruct (greedy_step_index_error_only m n st Hlen) as [Honly Hok].
  { intros E. rewrite E in Hle. simpl in Hle. lia. }
  apply index_error_only_bind; [done|]. intros st' Hst'.
  destruct (Hok st' Hst') as [Hlen' Hcount]. apply IH; [done|].
  simpl in Hle. lia.
Qed.

(** X3.  Whatever the matrix and the start, [tsp_greedy] either returns or
    raises [IndexError]: [min] is never applied to an empty list of
    candidates, so [ValueError] cannot occur. *)
Theorem greedy_raises_only_index_error (m : matrix) (start : Z) :
  (∃ r, tsp_greedy m start = Ok r) ∨ tsp_greedy m start = Raise IndexError.
Proof.
  apply index_error_only_cases. unfold tsp_greedy.
  apply index_error_only_bind; [apply setitem_index_error_only|].
  intros vis [Hstart ->]%setitem_Ok.
  assert (py_len (replicate (length m) false) = py_len m) as Hrep.
  { unfold py_len. by rewrite length_replicate. }
  rewrite Hrep in *.
  pose proof (search_init_consistent m start Hstart) as Hc.
  pose proof (consistent_length _ _ _ Hc) as Hcount.
  cbn [path visited search_init length] in Hc, Hcount.
  apply index_error_only_bind.
  - apply greedy_loop_index_error_only; simpl.
    + by rewrite py_len_insert.
    + rewrite range_length by lia. lia.
  - intros st _. apply index_error_only_bind; [|done].
    apply lookup2_index_error_only.
Qed.

Lemma backtrack_with_index_error_only (test : Z → distance → bool)
    (m : matrix) (n start : Z) (fuel : nat) :
  ∀ cd s,
    py_len (path s) ≤ n → n - py_len (path s) < Z.of_nat fuel →
    index_error_only (backtrack_with test m n start fuel cd s).
Proof.
  induction fuel as [|fuel IH]; intros cd s Hlen Hfuel; [lia|]. simpl.
  apply index_error_only_bind; [apply getitem_index_error_only|].
  intros cur _. destruct (py_len (path s) =? n) eqn:Hleaf.
  - apply index_error_only_bind; [apply lookup2_index_error_only|].
    intros d _. by destruct (lt_distance _ _).
  - apply Z.eqb_neq in Hleaf.
    apply (for_in_index_error_only (λ s0, path s0 = path s)); [|done].
    intros c s0 Hp.
    pose proof (getitem_index_error_only (visited s0) c) as Hv.
    destruct (getitem (visited s0) c) as [v|[]|]; simpl in *; try done.
    destruct v; simpl; [split; [done | by intros s' [= <-]]|].
    pose proof (lookup2_index_error_only m cur c) as Hd.
    destruct (lookup2 m cur c) as [d|[]|]; simpl in *; try done.
    destruct (test _ _); [|split; [done | by intros s' [= <-]]].
    pose proof (setitem_index_error_only (visited s0) c true) as Hset.
    destruct (setitem (visited s0) c true) as [vis1|[]|]; simpl in *; try done.
    split.
    + apply index_error_only_bind.
      { apply IH; simpl; unfold py_len in *; rewrite length_app, Hp; simpl; lia. }
      intros s2 [Hp2 Hv2]%backtrack_with_frame. simpl in Hp2.
      rewrite Hp2, pop_snoc. simpl.
      apply index_error_only_bind; [apply setitem_index_error_only | done].
    + intros s'.
      destruct (backtrack_with test m n start fuel _ _) as [s2| |] eqn:Hs2;
        simpl; [|done..].
      apply backtrack_with_frame in Hs2 as [Hp2 Hv2]. simpl in Hp2.
      rewrite Hp2, pop_snoc. simpl.
      destruct (setitem (visited s2) c false); simpl; [|done..].
      by intros [= <-].
Qed.

(** X4.  Whatever the matrix and the start, [tsp_branch_and_bound] either
    returns or raises [IndexError]: the recursion of [backtrack] is never
    more than [n] calls deep, so the search always comes to an end. *)
Theorem branch_and_bound_raises_only_index_error (m : matrix) (start : Z) :
  (∃ r, tsp_branch_and_bound m start = Ok r) ∨
  tsp_branch_and_bound m start = Raise IndexError.
Proof.
  apply index_error_only_cases. unfold tsp_branch_and_bound, solve_with.
  apply index_error_only_bind; [apply setitem_index_error_only|].
  intros vis [Hstart _]%setitem_Ok.
  unfold py_len in Hstart. rewrite length_replicate in Hstart.
  apply index_error_only_bind; [|done].
  apply backtrack_with_index_error_only; unfold py_len; simpl; lia.
Qed.

(** ** A single location *)

(** X5.  On a matrix with a single location both solvers return the path
    [[start, start]] for either spelling of the start, [0] or [-1], and the
    distance is the diagonal entry itself, whatever it is. *)
Theorem single_location (x start : Z) :
  start = 0 ∨ start = -1 →
  tsp_greedy [[x]] start = Ok ([start; start], x) ∧
  tsp_branch_and_bound [[x]] start = Ok ([start; start], Fin x).
Proof. intros [-> | ->]; split; reflexivity. Qed.

Lemma single_location_witness :
  (0 = 0 ∨ 0 = -1) ∧
  tsp_greedy [[7]] 0 = Ok ([0; 0], 7) ∧
  tsp_branch_and_bound [[7]] 0 = Ok ([0; 0], Fin 7).
Proof.
  split; [by left|]. apply (single_location 7 0). by left.
Defined.

(** ** The number of calls of the search *)

Lemma calls_below_base (cs : list call_tree) (base : list call_tree) :
  foldr (λ c acc, all_calls c ++ acc) base cs = calls_below cs ++ base.
Proof.
  unfold calls_below. induction cs as [|c cs IH]; simpl; [done|].
  by rewrite IH, app_assoc.
Qed.

Lemma calls_below_snoc (cs : list call_tree) (t : call_tree) :
  calls_below (cs ++ [t]) = calls_below cs ++ all_calls t.
Proof.
  unfold calls_below at 1. rewrite foldr_app. simpl.
  by rewrite calls_below_base, app_nil_r.
Qed.

Lemma search_nodes_pos (u : nat) : (1 ≤ search_nodes u)%nat.
Proof. destruct u; simpl; lia. Qed.

Lemma search_nodes_below_factorial (k : nat) :
  (search_nodes (2 + k) < fact (3 + k))%nat.
Proof.
  induction k as [|k IH]; [simpl; lia|].
  change (search_nodes (2 + S k))
    with (1 + (3 + k) * search_nodes (2 + k))%nat.
  change (fact (3 + S k)) with ((4 + k) * fact (3 + k))%nat.
  nia.
Qed.

(** Whatever the matrix, a call that returns has made, itself included, at
    most [search_nodes u] calls, [u] being the number of locations it
    received unmarked. *)
Lemma backtrack_calls_count (m : matrix) (n start : Z) (fuel : nat) :
  ∀ cd s r,
    backtrack_calls m n start fuel cd s = Ok r →
    (length (all_calls r.2) ≤
       search_nodes (length (unvisited n (visited s))))%nat.
Proof.
  induction fuel as [|fuel IH]; intros cd s r Hrun; [done|]. simpl in Hrun.
  destruct (getitem (path s) (-1)) as [cur| |]; simpl in Hrun; [|done..].
  destruct (py_len (path s) =? n).
  - destruct (lookup2 m cur start) as [d| |]; simpl in Hrun; [|done..].
    pose proof (search_nodes_pos (length (unvisited n (visited s)))).
    destruct (lt_distance _ _); injection Hrun as <-; simpl; lia.
  - match type of Hrun with
    | context [for_in _ ?b _] => set (body := b) in Hrun
    end.
    destruct (for_in (range n) body (s, [])) as [r0| |] eqn:Hloop;
      simpl in Hrun; [|done..]. injection Hrun as <-.
    cbn [snd all_calls length]. fold (calls_below r0.2).
    set (u := length (unvisited n (visited s))).
    assert (∀ l r r',
              Forall (λ c, 0 ≤ c < n) l →
              path r.1 = path s → visited r.1 = visited s →
              for_in l body r = Ok r' →
              path r'.1 = path s ∧ visited r'.1 = visited s ∧
              (length (calls_below r'.2) ≤
                 length (calls_below r.2) +
                 length (filter (λ j, visited s !! Z.to_nat j = Some false) l) *
                   search_nodes (pred u))%nat) as Hcount.
    { intros l. induction l as [|c l IHl]; intros r r' Hl Hp Hv Hfor;
        simpl in Hfor.
      { injection Hfor as <-. simpl. do 2 (split; [done|]). lia. }
      apply Forall_cons in Hl as [Hc Hl].
      destruct (body c r) as [r1| |] eqn:Hbody; simpl in Hfor; [|done..].
      assert (path r1.1 = path s ∧ visited r1.1 = visited s ∧
              (length (calls_below r1.2) ≤
                 length (calls_below r.2) +
                 length (filter (λ j, visited s !! Z.to_nat j = Some false) [c]) *
                   search_nodes (pred u))%nat) as (Hp1 & Hv1 & Hstep).
      { unfold body in Hbody. rewrite Hv in Hbody.
        destruct (getitem (visited s) c) as [v| |] eqn:Hget;
          simpl in Hbody; [|done..].
        apply getitem_Ok in Hget as [_ Hget]. rewrite norm_id in Hget by lia.
        destruct v; simpl in Hbody.
        { injection Hbody as <-. do 2 (split; [done|]). lia. }
        destruct (lookup2 m cur c) as [d| |]; simpl in Hbody; [|done..].
        destruct (pruning_test _ _).
        2:{ injection Hbody as <-. do 2 (split; [done|]). lia. }
        destruct (setitem (visited s) c true) as [vis1| |] eqn:Hset;
          simpl in Hbody; [|done..].
        apply setitem_Ok in Hset as [Hcv ->].
        rewrite norm_id in Hbody by lia.
        destruct (backtrack_calls _ _ _ _ _ _) as [rc| |] eqn:Hrc;
          simpl in Hbody; [|done..].
        pose proof (backtrack_calls_erase m n start fuel (cd + d)
                      (SearchState (path r.1 ++ [c])
                         (<[Z.to_nat c := true]> (visited s))
                         (best_distance r.1) (best_path r.1))) as Herase.
        rewrite Hrc in Herase. simpl in Herase. symmetry in Herase.
        apply backtrack_with_frame in Herase as [Hpc Hvc]. simpl in Hpc, Hvc.
        rewrite Hpc, Hvc, pop_snoc in Hbody. simpl in Hbody.
        rewrite setitem_nonneg in Hbody by (rewrite py_len_insert; lia).
        simpl in Hbody. rewrite unmark in Hbody by done.
        injection Hbody as <-. simpl. do 2 (split; [done|]).
        rewrite calls_below_snoc, length_app.
        rewrite filter_cons_True, filter_nil by done. simpl.
        apply IH in Hrc. simpl in Hrc.
        assert (c ∈ unvisited n (visited s)) as Hcu
          by by apply elem_of_unvisited.
        pose proof (unvisited_mark n (visited s) c Hcu) as Hmark.
        apply Permutation_length in Hmark. simpl in Hmark.
        fold u in Hmark. rewrite Hmark. simpl. lia. }
      destruct (IHl r1 r' Hl Hp1 Hv1 Hfor) as (Hp' & Hv' & Hrest).
      do 2 (split; [done|]).
      change (c :: l) with ([c] ++ l). rewrite filter_app, length_app. lia. }
    destruct (Hcount (range n) (s, []) r0) as (_ & _ & Htotal); try done.
    { apply Forall_forall. intros c. by rewrite elem_of_range. }
    simpl in Htotal. fold (unvisited n (visited s)) in Htotal. fold u in Htotal.
    destruct u as [|u']; simpl in *; lia.
Qed.

(** X6.  Over a square matrix and from a start in [0, n), the search of
    [tsp_branch_and_bound] makes at most [search_nodes (n - 1)] calls of
    [backtrack], where [search_nodes u = 1 + u * search_nodes (u - 1)] and
    [search_nodes 0 = 1]; for three locations or more that is fewer than
    [n!]. *)
Theorem search_call_bound (m : matrix) (start : Z) :
  square m → 0 ≤ start < py_len m →
  ∃ s t,
    backtrack_calls m (py_len m) start (length m) 0 (search_init m start) =
      Ok (s, t) ∧
    tsp_branch_and_bound m start = Ok (best_path s ++ [start], best_distance s) ∧
    (length (all_calls t) ≤ search_nodes (length m - 1))%nat ∧
    ((3 ≤ length m)%nat → (length (all_calls t) < fact (length m))%nat).
Proof.
  intros Hsq Hstart.
  destruct (search_calls m start Hsq Hstart)
    as (s & t & Hcalls & Hrun & _).
  exists s, t. split; [done|]. split.
  { unfold tsp_branch_and_bound. rewrite solve_with_init by lia.
    unfold backtrack in Hrun. by rewrite Hrun. }
  pose proof (backtrack_calls_count _ _ _ _ _ _ _ Hcalls) as Hcount.
  pose proof (consistent_length _ _ _
                (search_init_consistent m start ltac:(lia))) as Hlen.
  cbn [path search_init length] in Hlen. cbn [snd] in Hcount.
  assert (length (unvisited (py_len m) (visited (search_init m start))) =
            (length m - 1)%nat) as Hu by (unfold py_len in *; lia).
  rewrite Hu in Hcount. split; [done|]. intros Hthree.
  pose proof (search_nodes_below_factorial (length m - 3)) as Hfact.
  replace (2 + (length m - 3))%nat with (length m - 1)%nat in Hfact by lia.
  replace (3 + (length m - 3))%nat with (length m) in Hfact by lia.
  lia.
Qed.

Lemma search_call_bound_witness :
  square four_cities ∧ 0 ≤ 0 < py_len four_cities ∧
  ∃ s t,
    backtrack_calls four_cities (py_len four_cities) 0 (length four_cities) 0
      (search_init four_cities 0) = Ok (s, t) ∧
    tsp_branch_and_bound four_cities 0 =
      Ok (best_path s ++ [0], best_distance s) ∧
    (length (all_calls t) ≤ search_nodes (length four_cities - 1))%nat ∧
    ((3 ≤ length four_cities)%nat →
     (length (all_calls t) < fact (length four_cities))%nat).
Proof.
  split; [apply four_cities_square|].
  split; [unfold py_len; simpl; lia|].
  apply (search_call_bound four_cities 0).
  - apply four_cities_square.
  - unfold py_len. simpl. lia.
Defined.

(** ** The route line and the edges of the drawing *)

Lemma getitem_label (locs : list string) (i : Z) :
  - py_len locs ≤ i < py_len locs → getitem locs i = Ok (label_of locs i).
Proof.
  intros Hi. destruct (getitem_valid locs i Hi) as [x Hx]. rewrite Hx.
  apply getitem_Ok in Hx as [_ Hx]. unfold label_of. by rewrite Hx.
Qed.

Lemma route_labels_valid (locs : list string) (p : list Z) :
  Forall (λ i, - py_len locs ≤ i < py_len locs) p →
  route_labels locs p = Ok (label_of locs <$> p).
Proof.
  induction 1 as [|i p Hi _ IH]; [done|]. simpl.
  by rewrite getitem_label, IH.
Qed.

Lemma route_labels_inv (locs : list string) (p : list Z) (labels : list string) :
  route_labels locs p = Ok labels →
  Forall (λ i, - py_len locs ≤ i < py_len locs) p ∧
  labels = label_of locs <$> p.
Proof.
  revert labels. induction p as [|i p IH]; intros labels Hrun; simpl in Hrun.
  - injection Hrun as <-. by split.
  - destruct (getitem locs i) as [x| |] eqn:Hx; simpl in Hrun; [|done..].
    destruct (route_labels locs p) as [ls| |]; simpl in Hrun; [|done..].
    injection Hrun as <-. destruct (IH ls eq_refl) as [Hvalid ->].
    pose proof Hx as [Hi _]%getitem_Ok. split; [by constructor|].
    rewrite getitem_label in Hx by done. by injection Hx as <-.
Qed.

(** The edges [visualize_path] adds are the pairs of consecutive labels of
    the route. *)
Lemma path_edges_zip (locs : list string) (p : list Z) :
  Forall (λ i, - py_len locs ≤ i < py_len locs) p →
  path_edges locs p =
    Ok (zip (label_of locs <$> p) (tail (label_of locs <$> p))).
Proof.
  intros Hp. unfold path_edges, range.
  set (labels := label_of locs <$> p).
  set (body := λ (i : Z) (edges : list (string * string)), _).
  assert (∀ k : nat, (k < length p)%nat →
            for_in (seqZ 0 (Z.of_nat k)) body [] =
              Ok (take k (zip labels (tail labels)))) as Hprefix.
  { induction k as [|k IH]; intros Hk; [by rewrite seqZ_nil|].
    rewrite seqZ_S, for_in_app, IH by lia. simpl. rewrite Z.add_0_l.
    destruct (lookup_lt_is_Some_2 p k) as [a Ha]; [lia|].
    destruct (lookup_lt_is_Some_2 p (S k)) as [b Hb]; [lia|].
    rewrite Forall_forall in Hp.
    unfold body at 1.
    rewrite (getitem_nonneg p _ a) by (rewrite ?Nat2Z.id; done || lia). simpl.
    rewrite getitem_label by (by eapply Hp, list_elem_of_lookup_2). simpl.
    rewrite (getitem_nonneg p _ b)
      by (replace (Z.to_nat (Z.of_nat k + 1)) with (S k) by lia; done || lia).
    simpl.
    rewrite getitem_label by (by eapply Hp, list_elem_of_lookup_2). simpl.
    f_equal. symmetry. apply take_S_r.
    rewrite lookup_zip_with, lookup_tail. unfold labels.
    by rewrite !list_lookup_fmap, Ha, Hb. }
  destruct p as [|a p]; [done|].
  replace (py_len (a :: p) - 1) with (Z.of_nat (length p))
    by (unfold py_len; simpl; lia).
  rewrite Hprefix by (simpl; lia). f_equal. apply take_ge.
  unfold labels. rewrite fmap_cons. cbn [tail].
  rewrite length_zip_with. cbn [length]. rewrite length_fmap. lia.
Qed.

Lemma label_of_range (locs : list string) :
  label_of locs <$> range (py_len locs) = locs.
Proof.
  apply list_eq. intros i. rewrite list_lookup_fmap. unfold range.
  destruct (decide (i < length locs)%nat) as [Hi|Hi].
  - rewrite lookup_seqZ_lt by (unfold py_len; lia). simpl.
    destruct (lookup_lt_is_Some_2 locs i Hi) as [x Hx]. rewrite Hx.
    unfold label_of.
    replace (Z.to_nat (norm (py_len locs) (0 + Z.of_nat i))) with i
      by (rewrite norm_id; lia).
    by rewrite Hx.
  - rewrite lookup_seqZ_ge by (unfold py_len; lia). simpl.
    symmetry. apply lookup_ge_None. lia.
Qed.

Lemma zip_longer_left {A B : Type} (x : list A) (y : list B) (a : A) :
  length y = length x → zip (x ++ [a]) y = zip x y.
Proof.
  revert y. induction x as [|x0 x IH]; intros [|y0 y] Hlen; simpl in *;
    try done.
  f_equal. apply IH. lia.
Qed.

(** The labels of a closed tour: the start, every other location once, and
    the start again. *)
Lemma closed_tour_labels (locs : list string) (start : Z) (q : list Z) :
  - py_len locs ≤ start < py_len locs →
  norm (py_len locs) start :: q ≡ₚ range (py_len locs) →
  Forall (λ i, - py_len locs ≤ i < py_len locs) (start :: q ++ [start]) ∧
  label_of locs <$> (start :: q ++ [start]) =
    label_of locs start :: (label_of locs <$> q) ++ [label_of locs start] ∧
  label_of locs start :: (label_of locs <$> q) ≡ₚ locs.
Proof.
  intros Hstart Hperm.
  assert (Forall (λ j, 0 ≤ j < py_len locs) q) as Hq.
  { apply Forall_forall. intros j Hj. apply elem_of_range.
    rewrite <- Hperm. by right. }
  split; [|split].
  - constructor; [done|]. apply Forall_app. split; [|by constructor].
    eapply Forall_impl; [exact Hq|]. simpl. lia.
  - by rewrite fmap_cons, fmap_app.
  - transitivity (label_of locs <$> (norm (py_len locs) start :: q)).
    + rewrite fmap_cons.
      replace (label_of locs (norm (py_len locs) start))
        with (label_of locs start); [done|].
      unfold label_of.
      by rewrite (norm_id _ (norm _ _))
        by (pose proof (norm_range _ _ Hstart); lia).
    + rewrite Hperm. by rewrite label_of_range.
Qed.

(** X7.  When there are as many labels as the square matrix has rows, and
    for any start in [-n, n), the route line the script prints for the tour
    of either solver names the start location, then every other location
    exactly once, then the start location again, joined by [" -> "]; no
    label lookup fails. *)
Theorem route_text_names_every_location (locs : list string) (m : matrix)
    (start : Z) :
  square m → length locs = length m → - py_len m ≤ start < py_len m →
  (∃ p d rest,
     tsp_greedy m start = Ok (p, d) ∧
     getitem locs start = Ok (label_of locs start) ∧
     route_text locs p =
       Ok (String.concat " -> "
             (label_of locs start :: rest ++ [label_of locs start])) ∧
     label_of locs start :: rest ≡ₚ locs) ∧
  (∃ p d rest,
     tsp_branch_and_bound m start = Ok (p, d) ∧
     getitem locs start = Ok (label_of locs start) ∧
     route_text locs p =
       Ok (String.concat " -> "
             (label_of locs start :: rest ++ [label_of locs start])) ∧
     label_of locs start :: rest ≡ₚ locs).
Proof.
  intros Hsq Hlen Hstart.
  assert (py_len locs = py_len m) as Hn by (unfold py_len; lia).
  assert (∀ q, norm (py_len m) start :: q ≡ₚ range (py_len m) →
            getitem locs start = Ok (label_of locs start) ∧
            route_text locs (start :: q ++ [start]) =
              Ok (String.concat " -> "
                    (label_of locs start :: (label_of locs <$> q)
                       ++ [label_of locs start])) ∧
            label_of locs start :: (label_of locs <$> q) ≡ₚ locs) as Htour.
  { intros q Hperm. rewrite <- Hn in Hperm, Hstart.
    destruct (closed_tour_labels locs start q Hstart Hperm)
      as (Hvalid & Hlabels & Hall).
    split; [by apply getitem_label|]. split; [|done].
    unfold route_text. by rewrite route_labels_valid, Hlabels. }
  split.
  - destruct (tsp_greedy_spec m start Hsq Hstart)
      as (st & q & _ & Hq & Hperm & _ & Hrun).
    rewrite Hq in Hrun. eexists _, _, _. split; [exact Hrun|].
    by apply Htour.
  - destruct (solve_with_spec pruning_test (length m) m start
                (λ _, eq_refl) Hsq Hstart (le_n _))
      as (q & Hrun & Hperm & _).
    eexists _, _, _. split; [exact Hrun|]. by apply Htour.
Qed.

Lemma four_labels_length :
  length ["A"; "B"; "C"; "D"]%string = length four_cities.
Proof. reflexivity. Qed.

Lemma route_text_names_every_location_witness :
  square four_cities ∧
  length ["A"; "B"; "C"; "D"]%string = length four_cities ∧
  - py_len four_cities ≤ 0 < py_len four_cities ∧
  (∃ p d rest,
     tsp_greedy four_cities 0 = Ok (p, d) ∧
     getitem ["A"; "B"; "C"; "D"]%string 0 =
       Ok (label_of ["A"; "B"; "C"; "D"]%string 0) ∧
     route_text ["A"; "B"; "C"; "D"]%string p =
       Ok (String.concat " -> "
             (label_of ["A"; "B"; "C"; "D"]%string 0 :: rest
                ++ [label_of ["A"; "B"; "C"; "D"]%string 0])) ∧
     label_of ["A"; "B"; "C"; "D"]%string 0 :: rest
       ≡ₚ ["A"; "B"; "C"; "D"]%string) ∧
  (∃ p d rest,
     tsp_branch_and_bound four_cities 0 = Ok (p, d) ∧
     getitem ["A"; "B"; "C"; "D"]%string 0 =
       Ok (label_of ["A"; "B"; "C"; "D"]%string 0) ∧
     route_text ["A"; "B"; "C"; "D"]%string p =
       Ok (String.concat " -> "
             (label_of ["A"; "B"; "C"; "D"]%string 0 :: rest
                ++ [label_of ["A"; "B"; "C"; "D"]%string 0])) ∧
     label_of ["A"; "B"; "C"; "D"]%string 0 :: rest
       ≡ₚ ["A"; "B"; "C"; "D"]%string).
Proof.
  split; [apply four_cities_square|]. split; [apply four_labels_length|].
  split; [unfold py_len; simpl; lia|].
  apply (route_text_names_every_location ["A"; "B"; "C"; "D"]%string
           four_cities 0).
  - apply four_cities_square.
  - apply four_labels_length.
  - unfold py_len. simpl. lia.
Defined.

(** X8.  Under the same conditions, [visualize_path] applied to the tour of
    either solver adds exactly [n] edges without a failed lookup: one leaves
    each location, each ends where the next one starts, and the last one
    ends at the start location. *)
Theorem tour_edges_form_a_cycle (locs : list string) (m : matrix) (start : Z) :
  square m → length locs = length m → - py_len m ≤ start < py_len m →
  (∃ p d rest,
     tsp_greedy m start = Ok (p, d) ∧
     path_edges locs p =
       Ok (zip (label_of locs start :: rest) (rest ++ [label_of locs start])) ∧
     length rest = (length m - 1)%nat ∧
     label_of locs start :: rest ≡ₚ locs) ∧
  (∃ p d rest,
     tsp_branch_and_bound m start = Ok (p, d) ∧
     path_edges locs p =
       Ok (zip (label_of locs start :: rest) (rest ++ [label_of locs start])) ∧
     length rest = (length m - 1)%nat ∧
     label_of locs start :: rest ≡ₚ locs).
Proof.
  intros Hsq Hlen Hstart.
  assert (py_len locs = py_len m) as Hn by (unfold py_len; lia).
  assert (∀ q, norm (py_len m) start :: q ≡ₚ range (py_len m) →
            path_edges locs (start :: q ++ [start]) =
              Ok (zip (label_of locs start :: (label_of locs <$> q))
                      ((label_of locs <$> q) ++ [label_of locs start])) ∧
            length (label_of locs <$> q) = (length m - 1)%nat ∧
            label_of locs start :: (label_of locs <$> q) ≡ₚ locs) as Htour.
  { intros q Hperm. rewrite <- Hn in Hperm, Hstart.
    destruct (closed_tour_labels locs start q Hstart Hperm)
      as (Hvalid & Hlabels & Hall).
    split; [|split; [|done]].
    - rewrite path_edges_zip, Hlabels by done. cbn [tail]. f_equal.
      apply (zip_longer_left (label_of locs start :: (label_of locs <$> q))).
      rewrite length_app. simpl. lia.
    - apply Permutation_length in Hall. simpl in Hall. lia. }
  split.
  - destruct (tsp_greedy_spec m start Hsq Hstart)
      as (st & q & _ & Hq & Hperm & _ & Hrun).
    rewrite Hq in Hrun. eexists _, _, _. split; [exact Hrun|].
    by apply Htour.
  - destruct (solve_with_spec pruning_test (length m) m start
                (λ _, eq_refl) Hsq Hstart (le_n _))
      as (q & Hrun & Hperm & _).
    eexists _, _, _. split; [exact Hrun|]. by apply Htour.
Qed.

Lemma tour_edges_form_a_cycle_witness :
  square four_cities ∧
  length ["A"; "B"; "C"; "D"]%string = length four_cities ∧
  - py_len four_cities ≤ 0 < py_len four_cities ∧
  (∃ p d rest,
     tsp_greedy four_cities 0 = Ok (p, d) ∧
     path_edges ["A"; "B"; "C"; "D"]%string p =
       Ok (zip (label_of ["A"; "B"; "C"; "D"]%string 0 :: rest)
               (rest ++ [label_of ["A"; "B"; "C"; "D"]%string 0])) ∧
     length rest = (length four_cities - 1)%nat ∧
     label_of ["A"; "B"; "C"; "D"]%string 0 :: rest
       ≡ₚ ["A"; "B"; "C"; "D"]%string) ∧
  (∃ p d rest,
     tsp_branch_and_bound four_cities 0 = Ok (p, d) ∧
     path_edges ["A"; "B"; "C"; "D"]%string p =
       Ok (zip (label_of ["A"; "B"; "C"; "D"]%string 0 :: rest)
               (rest ++ [label_of ["A"; "B"; "C"; "D"]%string 0])) ∧
     length rest = (length four_cities - 1)%nat ∧
     label_of ["A"; "B"; "C"; "D"]%string 0 :: rest
       ≡ₚ ["A"; "B"; "C"; "D"]%string).
Proof.
  split; [apply four_cities_square|]. split; [apply four_labels_length|].
  split; [unfold py_len; simpl; lia|].
  apply (tour_edges_form_a_cycle ["A"; "B"; "C"; "D"]%string four_cities 0).
  - apply four_cities_square.
  - apply four_labels_length.
  - unfold py_len. simpl. lia.
Defined.

Example route_text_hyderabad :
  route_text locations [0; 2; 1; 5; 7; 8; 9; 6; 3; 4; 0] =
    Ok "Gachibowli -> Kondapur -> Madhapur -> Banjara Hills -> LB Nagar -> Charminar -> Begumpet -> Secunderabad -> Kukatpally -> Hitech City -> Gachibowli"%string.
Proof. reflexivity. Qed.

(** ** The best tour known only improves *)

Lemma dle_antisym (a b : distance) : dle a b → dle b a → a = b.
Proof. destruct a, b; simpl; try done. intros. f_equal. lia. Qed.

(** X9.  Whatever the matrix and the state it is called in, a call of
    [backtrack] that returns leaves a best distance that is at most the one
    it found, and leaves the best path untouched unless the best distance
    has strictly decreased. *)
Theorem best_distance_never_increases (m : matrix) (n start : Z) (fuel : nat)
    (cd : Z) (s s' : search_state) :
  backtrack m n start fuel cd s = Ok s' →
  dle (best_distance s') (best_distance s) ∧
  (best_distance s' = best_distance s → best_path s' = best_path s).
Proof.
  unfold backtrack. revert cd s s'.
  induction fuel as [|fuel IH]; intros cd s s' Hrun; [done|]. simpl in Hrun.
  destruct (getitem (path s) (-1)) as [cur| |]; simpl in Hrun; [|done..].
  destruct (py_len (path s) =? n).
  - destruct (lookup2 m cur start) as [d| |]; simpl in Hrun; [|done..].
    destruct (lt_distance _ _) eqn:Hlt; injection Hrun as <-; simpl.
    + split; [by apply lt_distance_true|]. intros E. rewrite <- E in Hlt.
      simpl in Hlt. apply Z.ltb_lt in Hlt. lia.
    + split; [apply dle_refl | done].
  - revert Hrun.
    apply (for_in_invariant
             (λ s0, dle (best_distance s0) (best_distance s) ∧
                    (best_distance s0 = best_distance s →
                     best_path s0 = best_path s)));
      [|split; [apply dle_refl | done]].
    clear s'. intros c s0 s1 [Hle Hkeep] Hbody.
    destruct (getitem (visited s0) c) as [v| |]; simpl in Hbody; [|done..].
    destruct v; simpl in Hbody; [by injection Hbody as <-|].
    destruct (lookup2 m cur c) as [d| |]; simpl in Hbody; [|done..].
    destruct (pruning_test _ _); [|by injection Hbody as <-].
    destruct (setitem (visited s0) c true) as [vis1| |];
      simpl in Hbody; [|done..].
    destruct (backtrack_with pruning_test m n start fuel _ _) as [s2| |] eqn:Hs2;
      simpl in Hbody; [|done..].
    apply IH in Hs2 as [Hle2 Hkeep2]. simpl in Hle2, Hkeep2.
    destruct (pop (path s2)) as [p2| |]; simpl in Hbody; [|done..].
    destruct (setitem (visited s2) c false) as [vis2| |];
      simpl in Hbody; [|done..].
    injection Hbody as <-. simpl. split; [by eapply dle_trans|].
    intros E. rewrite E in Hle2.
    pose proof (dle_antisym _ _ Hle Hle2) as E0.
    rewrite Hkeep2, Hkeep by congruence. done.
Qed.

Lemma best_distance_never_increases_witness :
  backtrack four_cities 4 0 4 0 (search_init four_cities 0) =
    Ok (SearchState [0] [true; false; false; false] (Fin 80) [0; 1; 3; 2]) ∧
  dle (Fin 80) (best_distance (search_init four_cities 0)) ∧
  (Fin 80 = best_distance (search_init four_cities 0) →
   [0; 1; 3; 2] = best_path (search_init four_cities 0)).
Proof.
  split; [reflexivity|].
  apply (best_distance_never_increases four_cities 4 0 4 0
           (search_init four_cities 0)
           (SearchState [0] [true; false; false; false] (Fin 80) [0; 1; 3; 2])).
  reflexivity.
Defined.

(** ** The optimal distance does not depend on the start *)

Lemma path_length_app (m : matrix) (p : list Z) (a : Z) (r : list Z) :
  path_length m ((p ++ [a]) ++ r) =
    path_length m (p ++ [a]) + path_length m (a :: r).
Proof.
  induction p as [|x [|y p] IH].
  - simpl. lia.
  - simpl. lia.
  - change (path_length m (((x :: y :: p) ++ [a]) ++ r))
      with (edge m x y + path_length m (((y :: p) ++ [a]) ++ r)).
    change (path_length m ((x :: y :: p) ++ [a]))
      with (edge m x y + path_length m ((y :: p) ++ [a])).
    rewrite IH. lia.
Qed.

(** A closed tour has the same length from whichever of its locations it is
    read. *)
Lemma tour_rotate (m : matrix) (a b : Z) (q1 q2 : list Z) :
  path_length m (a :: (q1 ++ b :: q2) ++ [a]) =
    path_length m (b :: (q2 ++ a :: q1) ++ [b]).
Proof.
  replace (a :: (q1 ++ b :: q2) ++ [a])
    with (((a :: q1) ++ [b]) ++ (q2 ++ [a]))
    by (simpl; by rewrite <- !app_assoc).
  replace (b :: (q2 ++ a :: q1) ++ [b])
    with (((b :: q2) ++ [a]) ++ (q1 ++ [b]))
    by (simpl; by rewrite <- !app_assoc).
  rewrite !path_length_app. simpl. lia.
Qed.

Lemma optimum_rotates (m : matrix) (a b : Z) (q : list Z) :
  0 ≤ a < py_len m → 0 ≤ b < py_len m →
  a :: q ≡ₚ range (py_len m) →
  ∃ q', b :: q' ≡ₚ range (py_len m) ∧
        path_length m (b :: q' ++ [b]) = path_length m (a :: q ++ [a]).
Proof.
  intros Ha Hb Hperm. destruct (decide (a = b)) as [->|Hne]; [by exists q|].
  assert (b ∈ q) as Hbq.
  { assert (b ∈ a :: q) as [?|?]%elem_of_cons
      by (rewrite Hperm; by apply elem_of_range); done. }
  apply list_elem_of_split in Hbq as (q1 & q2 & ->).
  exists (q2 ++ a :: q1). split; [|by rewrite tour_rotate].
  rewrite <- Hperm.
  change (b :: q2 ++ a :: q1) with ((b :: q2) ++ (a :: q1)).
  by rewrite Permutation_app_comm.
Qed.

(** X10.  Over a square matrix without negative entries, the distance
    [tsp_branch_and_bound] returns is the same from every start in
    [0, n). *)
Theorem optimal_distance_independent_of_start (m : matrix) (start start' : Z) :
  square m → nonneg m →
  0 ≤ start < py_len m → 0 ≤ start' < py_len m →
  ∃ p p' d,
    tsp_branch_and_bound m start = Ok (p, Fin d) ∧
    tsp_branch_and_bound m start' = Ok (p', Fin d).
Proof.
  intros Hsq Hnn Hs Hs'.
  destruct (solve_with_spec pruning_test (length m) m start
              (λ _, eq_refl) Hsq ltac:(lia) (le_n _))
    as (q & Hrun & Hperm & Hmin).
  destruct (solve_with_spec pruning_test (length m) m start'
              (λ _, eq_refl) Hsq ltac:(lia) (le_n _))
    as (q' & Hrun' & Hperm' & Hmin').
  specialize (Hmin (pruning_test_sound m Hnn)).
  specialize (Hmin' (pruning_test_sound m Hnn)).
  rewrite norm_id in Hperm, Hmin by lia.
  rewrite norm_id in Hperm', Hmin' by lia.
  destruct (optimum_rotates m start start' q Hs Hs' Hperm) as (r' & Hr' & Hlen').
  destruct (optimum_rotates m start' start q' Hs' Hs Hperm') as (r & Hr & Hlen).
  specialize (Hmin r Hr). specialize (Hmin' r' Hr').
  rewrite <- !tour_length_closing in Hmin, Hmin'.
  eexists _, _, _. split; [exact Hrun|].
  unfold tsp_branch_and_bound. rewrite Hrun'. do 3 f_equal.
  rewrite <- !tour_length_closing. lia.
Qed.

Lemma optimal_distance_independent_of_start_witness :
  square four_cities ∧ nonneg four_cities ∧
  0 ≤ 0 < py_len four_cities ∧ 0 ≤ 2 < py_len four_cities ∧
  ∃ p p' d,
    tsp_branch_and_bound four_cities 0 = Ok (p, Fin d) ∧
    tsp_branch_and_bound four_cities 2 = Ok (p', Fin d).
Proof.
  split; [apply four_cities_square|]. split; [apply four_cities_nonneg|].
  split; [unfold py_len; simpl; lia|]. split; [unfold py_len; simpl; lia|].
  apply (optimal_distance_independent_of_start four_cities 0 2).
  - apply four_cities_square.
  - apply four_cities_nonneg.
  - unfold py_len. simpl. lia.
  - unfold py_len. simpl. lia.
Defined.

(** ** A start given from the end names the same tour *)

Lemma edge_row_alias (m : matrix) (a j : Z) :
  - py_len m ≤ a < py_len m → edge m a j = edge m (norm (py_len m) a) j.
Proof. intros Ha. unfold edge, lookup2. by rewrite <- (getitem_norm m a Ha). Qed.

Lemma nearest_unvisited_unique (m : matrix) (n : Z) (vis : list bool)
    (cur j j' : Z) :
  nearest_unvisited m n vis cur j → nearest_unvisited m n vis cur j' → j = j'.
Proof.
  intros [[Hj Hv] Hmin] [[Hj' Hv'] Hmin'].
  destruct (Hmin j' Hj' Hv') as [Hle Htie].
  destruct (Hmin' j Hj Hv) as [Hle' Htie'].
  specialize (Htie ltac:(lia)). specialize (Htie' ltac:(lia)). lia.
Qed.

Lemma selections_functional (m : matrix) (n : Z) (k : nat)
    (st a b : greedy_state) :
  selections m n k st a → selections m n k st b → a = b.
Proof.
  intros Ha. revert b. induction Ha as [st|k st j st' Hj _ IH]; intros b Hb.
  - by inversion Hb.
  - inversion Hb as [|k' st0 j' st0' Hj' Hrest]; subst.
    rewrite (nearest_unvisited_unique _ _ _ _ _ _ Hj Hj') in IH. by apply IH.
Qed.

(** Two runs of the selection loop that start with the same flags and total
    and from rows with the same distances choose the same locations. *)
Lemma selections_alias (m : matrix) (n : Z) (k : nat) (st st1 : greedy_state) :
  selections m n k st st1 →
  ∀ st', g_visited st' = g_visited st → g_total st' = g_total st →
         (∀ j, edge m (g_current st') j = edge m (g_current st) j) →
         ∃ st1' suffix,
           selections m n k st' st1' ∧
           g_total st1' = g_total st1 ∧
           g_path st1 = g_path st ++ suffix ∧
           g_path st1' = g_path st' ++ suffix ∧
           ((g_current st1' = g_current st' ∧ g_current st1 = g_current st) ∨
            (g_current st1' = g_current st1 ∧ 0 ≤ g_current st1 < n)).
Proof.
  induction 1 as [st|k st j st1 Hj Hrest IH]; intros st' Hv Ht Hedge.
  - exists st', []. rewrite !app_nil_r. split; [constructor|].
    do 3 (split; [done|]). by left.
  - destruct (IH (select m st' j)) as (st1' & suffix & Hsel & Ht1 & Hp & Hp' & Hcur).
    + simpl. by rewrite Hv.
    + simpl. by rewrite Ht, Hedge.
    + done.
    + exists st1', (j :: suffix). split.
      { econstructor; [|exact Hsel]. rewrite Hv.
        destruct Hj as [Hju Hmin]. split; [done|]. intros i Hi Hiv.
        rewrite !Hedge. by apply Hmin. }
      split; [done|]. simpl in Hp, Hp'.
      rewrite <- !app_assoc in Hp, Hp'. do 2 (split; [done|]).
      right. destruct Hj as [[Hjn _] _].
      destruct Hcur as [[-> ->]|[-> ?]]; simpl; by auto.
Qed.

(** X11.  Over a square matrix and for a start in [0, n), [tsp_greedy]
    called with [start - n] makes the same choices as with [start]: the two
    paths differ only in the spelling of their first and last entry, and the
    two distances are equal. *)
Theorem greedy_start_alias (m : matrix) (start : Z) :
  square m → 0 ≤ start < py_len m →
  ∃ q d,
    tsp_greedy m start = Ok (start :: q ++ [start], d) ∧
    tsp_greedy m (start - py_len m) =
      Ok ((start - py_len m) :: q ++ [start - py_len m], d).
Proof.
  intros Hsq Hstart. set (n := py_len m) in *.
  assert (- n ≤ start < n) as Hvalid by lia.
  assert (- n ≤ start - n < n) as Hvalid' by lia.
  assert (norm n (start - n) = start) as Hnorm'
    by (unfold norm; case_bool_decide; lia).
  assert (norm n start = start) as Hnorm by (apply norm_id; lia).
  destruct (tsp_greedy_spec m start Hsq Hvalid)
    as (st & q & Hsel & Hq & _ & _ & Hrun).
  destruct (tsp_greedy_spec m (start - n) Hsq Hvalid')
    as (st' & q' & Hsel' & Hq' & _ & _ & Hrun').
  destruct (selections_alias m n _ _ _ Hsel (greedy_init m (start - n)))
    as (st1' & suffix & Hsel1 & Ht & Hp & Hp' & Hcur).
  { simpl. fold n. by rewrite Hnorm, Hnorm'. }
  { done. }
  { intros j. simpl. rewrite (edge_row_alias m (start - n)) by done.
    fold n. by rewrite Hnorm'. }
  rewrite (selections_functional _ _ _ _ _ _ Hsel' Hsel1) in *. clear Hsel'.
  simpl in Hp, Hp'. rewrite Hq in Hp. rewrite Hq' in Hp'.
  injection Hp as ->. injection Hp' as ->.
  rewrite Hq in Hrun. rewrite Hq' in Hrun'.
  exists suffix, (g_total st + edge m (g_current st) start).
  split; [exact Hrun|]. rewrite Hrun'. do 2 f_equal. rewrite Ht. f_equal.
  destruct Hcur as [[-> ->]|[-> Hc]]; simpl.
  - rewrite (edge_norm m (start - n) (start - n)) by done. fold n.
    by rewrite Hnorm'.
  - rewrite (edge_norm m (g_current st) (start - n)) by (done || fold n; lia).
    rewrite (edge_norm m (g_current st) start) by (done || fold n; lia).
    fold n. by rewrite Hnorm, Hnorm'.
Qed.

Lemma greedy_start_alias_witness :
  square four_cities ∧ 0 ≤ 2 < py_len four_cities ∧
  ∃ q d,
    tsp_greedy four_cities 2 = Ok (2 :: q ++ [2], d) ∧
    tsp_greedy four_cities (2 - py_len four_cities) =
      Ok ((2 - py_len four_cities) :: q ++ [2 - py_len four_cities], d).
Proof.
  split; [apply four_cities_square|].
  split; [unfold py_len; simpl; lia|].
  apply (greedy_start_alias four_cities 2).
  - apply four_cities_square.
  - unfold py_len. simpl. lia.
Defined.

(** X12.  Over a square matrix without negative entries and for a start in
    [0, n), [tsp_branch_and_bound] called with [start - n] returns the tour
    it returns for [start], with only the first and last entry spelled
    [start - n], and the same distance. *)
Theorem branch_and_bound_start_alias (m : matrix) (start : Z) :
  square m → nonneg m → 0 ≤ start < py_len m →
  ∃ q d,
    tsp_branch_and_bound m start = Ok (start :: q ++ [start], Fin d) ∧
    tsp_branch_and_bound m (start - py_len m) =
      Ok ((start - py_len m) :: q ++ [start - py_len m], Fin d).
Proof.
  intros Hsq Hnn Hstart. set (n := py_len m) in *.
  assert (- n ≤ start < n) as Hvalid by lia.
  assert (- n ≤ start - n < n) as Hvalid' by lia.
  assert (norm n (start - n) = start) as Hnorm'
    by (unfold norm; case_bool_decide; lia).
  assert (norm n start = start) as Hnorm by (apply norm_id; lia).
  destruct (solve_with_first pruning_test m start (λ _, eq_refl) Hsq
              Hvalid (pruning_test_sound m Hnn))
    as (q & Hrun & Hperm & Hmin & Hlex).
  destruct (solve_with_first pruning_test m (start - n) (λ _, eq_refl) Hsq
              Hvalid' (pruning_test_sound m Hnn))
    as (q' & Hrun' & Hperm' & Hmin' & Hlex').
  fold n in Hperm, Hmin, Hlex, Hperm', Hmin', Hlex'.
  rewrite Hnorm in Hperm, Hmin, Hlex. rewrite Hnorm' in Hperm', Hmin', Hlex'.
  assert (∀ r, start :: r ≡ₚ range n →
            closing_cost m (start - n) r (start - n) =
            closing_cost m start r start) as Hcost.
  { intros r Hr. rewrite <- !tour_length_closing.
    rewrite (tour_length_norm m (start - n) r); fold n; rewrite ?Hnorm'; done. }
  assert (q' = q) as ->.
  { pose proof (Hmin q' Hperm'). pose proof (Hmin' q Hperm).
    pose proof (Hcost q Hperm). pose proof (Hcost q' Hperm').
    apply lex_le_antisym; [apply Hlex' | apply Hlex]; (done || lia). }
  exists q, (closing_cost m start q start). split; [exact Hrun|].
  unfold tsp_branch_and_bound. rewrite Hrun'. by rewrite Hcost.
Qed.

Lemma branch_and_bound_start_alias_witness :
  square four_cities ∧ nonneg four_cities ∧ 0 ≤ 2 < py_len four_cities ∧
  ∃ q d,
    tsp_branch_and_bound four_cities 2 = Ok (2 :: q ++ [2], Fin d) ∧
    tsp_branch_and_bound four_cities (2 - py_len four_cities) =
      Ok ((2 - py_len four_cities) :: q ++ [2 - py_len four_cities], Fin d).
Proof.
  split; [apply four_cities_square|]. split; [apply four_cities_nonneg|].
  split; [unfold py_len; simpl; lia|].
  apply (branch_and_bound_start_alias four_cities 2).
  - apply four_cities_square.
  - apply four_cities_nonneg.
  - unfold py_len. simpl. lia.
Defined.

(** ** Rows longer than the matrix is high *)

Lemma for_in_ext {S : Type} (l : list Z) (body body' : Z → S → res S) :
  (∀ c s, c ∈ l → body c s = body' c s) →
  ∀ s, for_in l body s = for_in l body' s.
Proof.
  induction l as [|c l IH]; intros Hbody s; simpl; [done|].
  rewrite Hbody by by left. destruct (body' c s); simpl; [|done..].
  apply IH. intros c' s' Hc'. apply Hbody. by right.
Qed.

Lemma getitem_last_inv {A : Type} (l : list A) (x : A) :
  getitem l (-1) = Ok x → last l = Some x.
Proof.
  intros [Hi Hx]%getitem_Ok. rewrite last_lookup.
  unfold norm, py_len in *. case_bool_decide; [|lia].
  by replace (pred (length l)) with (Z.to_nat (-1 + Z.of_nat (length l))) by lia.
Qed.

Section wide.
Context (m : matrix).
Hypothesis Hwide : Forall (λ row : list Z, (length m ≤ length row)%nat) m.

Lemma lookup2_wide (a b : Z) :
  0 ≤ a < py_len m → 0 ≤ b < py_len m →
  lookup2 (take (length m) <$> m) a b = lookup2 m a b.
Proof.
  intros Ha Hb. unfold lookup2.
  destruct (lookup_lt_is_Some_2 m (Z.to_nat a)) as [row Hrow];
    [unfold py_len in *; lia|].
  rewrite (getitem_nonneg m a row) by (done || lia).
  rewrite (getitem_nonneg _ a (take (length m) row))
    by (rewrite ?list_lookup_fmap, ?Hrow; done || lia).
  simpl.
  assert (length m ≤ length row)%nat as Hlen.
  { apply (proj1 (Forall_forall _ _) Hwide). by eapply list_elem_of_lookup_2. }
  destruct (lookup_lt_is_Some_2 row (Z.to_nat b)) as [x Hx];
    [unfold py_len in *; lia|].
  rewrite (getitem_nonneg row b x) by (done || lia).
  apply getitem_nonneg; [lia|].
  rewrite lookup_take_lt by (unfold py_len in *; lia). done.
Qed.

Lemma candidates_wide (vis : list bool) (cur : Z) (js : list Z) :
  0 ≤ cur < py_len m → Forall (λ j, 0 ≤ j < py_len m) js →
  candidates (take (length m) <$> m) vis cur js = candidates m vis cur js.
Proof.
  intros Hcur. induction 1 as [|j js Hj _ IH]; [done|]. simpl.
  destruct (getitem vis j) as [v| |]; simpl; [|done..].
  destruct (negb v); [|done]. by rewrite lookup2_wide, IH.
Qed.

Lemma candidates_among (mx : matrix) (vis : list bool) (cur : Z)
    (js : list Z) (cands : list (Z * Z)) :
  candidates mx vis cur js = Ok cands → Forall (λ x, x.2 ∈ js) cands.
Proof.
  revert cands. induction js as [|j js IH]; intros cands Hrun; simpl in Hrun.
  - injection Hrun as <-. constructor.
  - assert (∀ cs, Forall (λ x : Z * Z, x.2 ∈ js) cs →
                  Forall (λ x : Z * Z, x.2 ∈ j :: js) cs) as Hweaken.
    { intros cs Hcs. eapply Forall_impl; [exact Hcs|]. intros x Hx. by right. }
    destruct (getitem vis j) as [v| |]; simpl in Hrun; [|done..].
    destruct (negb v); [|by apply Hweaken, IH].
    destruct (lookup2 mx cur j) as [d| |]; simpl in Hrun; [|done..].
    destruct (candidates mx vis cur js) as [rest| |]; simpl in Hrun; [|done..].
    injection Hrun as <-. constructor; [by left|]. by apply Hweaken, IH.
Qed.

Lemma greedy_step_wide (st : greedy_state) :
  0 ≤ g_current st < py_len m →
  greedy_step (take (length m) <$> m) (py_len m) st =
    greedy_step m (py_len m) st ∧
  ∀ st', greedy_step m (py_len m) st = Ok st' →
         0 ≤ g_current st' < py_len m.
Proof.
  intros Hcur. unfold greedy_step.
  assert (Forall (λ j, 0 ≤ j < py_len m) (range (py_len m))) as Hrange.
  { apply Forall_forall. intros j. by rewrite elem_of_range. }
  rewrite candidates_wide by done.
  destruct (candidates m _ _ _) as [cands| |] eqn:Hcands; simpl; [|done..].
  destruct cands as [|x cands]; simpl; [done|].
  apply candidates_among in Hcands.
  assert (0 ≤ (min_scan x cands).2 < py_len m) as Hnext.
  { apply elem_of_range.
    apply (proj1 (Forall_forall _ _) Hcands), min_scan_in. }
  rewrite lookup2_wide by done.
  destruct (lookup2 m _ _) as [d| |]; simpl; [|done..].
  destruct (setitem _ _ _) as [vis'| |]; simpl; [|done..].
  split; [done|]. by intros st' [= <-].
Qed.

Lemma greedy_loop_wide (l : list Z) :
  ∀ st, 0 ≤ g_current st < py_len m →
    for_in l (λ _, greedy_step (take (length m) <$> m) (py_len m)) st =
      for_in l (λ _, greedy_step m (py_len m)) st ∧
    ∀ st', for_in l (λ _, greedy_step m (py_len m)) st = Ok st' →
           0 ≤ g_current st' < py_len m.
Proof.
  induction l as [|i l IH]; intros st Hcur; simpl.
  - split; [done|]. by intros st' [= <-].
  - destruct (greedy_step_wide st Hcur) as [-> Hnext].
    destruct (greedy_step m (py_len m) st) as [st1| |]; simpl; [|done..].
    apply IH. by apply Hnext.
Qed.

Lemma backtrack_with_wide (test : Z → distance → bool) (start : Z)
    (fuel : nat) :
  0 ≤ start < py_len m →
  ∀ cd s,
    (∀ cur, last (path s) = Some cur → 0 ≤ cur < py_len m) →
    backtrack_with test (take (length m) <$> m) (py_len m) start fuel cd s =
      backtrack_with test m (py_len m) start fuel cd s.
Proof.
  intros Hstart. induction fuel as [|fuel IH]; intros cd s Hlast; [done|].
  simpl. destruct (getitem (path s) (-1)) as [cur| |] eqn:Hcur; simpl; [|done..].
  apply getitem_last_inv, Hlast in Hcur.
  destruct (py_len (path s) =? py_len m); [by rewrite lookup2_wide|].
  apply for_in_ext. intros c s0 Hc%elem_of_range.
  destruct (getitem (visited s0) c) as [v| |]; simpl; [|done..].
  destruct (negb v); [|done]. rewrite lookup2_wide by done.
  destruct (lookup2 m cur c) as [d| |]; simpl; [|done..].
  destruct (test _ _); [|done].
  destruct (setitem (visited s0) c true) as [vis1| |]; simpl; [|done..].
  rewrite IH; [done|]. simpl. intros cur'. rewrite last_snoc. by intros [= <-].
Qed.
End wide.

(** X13.  Rows longer than the matrix is high are accepted: from a start in
    [0, n), both solvers return exactly what they return on the matrix cut
    down to its first [n] columns. *)
Theorem extra_columns_ignored (m : matrix) (start : Z) :
  Forall (λ row : list Z, (length m ≤ length row)%nat) m →
  0 ≤ start < py_len m →
  tsp_greedy m start = tsp_greedy (take (length m) <$> m) start ∧
  tsp_branch_and_bound m start =
    tsp_branch_and_bound (take (length m) <$> m) start.
Proof.
  intros Hwide Hstart.
  assert (py_len (take (length m) <$> m) = py_len m) as Hlen
    by (unfold py_len; by rewrite length_fmap).
  split.
  - unfold tsp_greedy. rewrite Hlen, length_fmap.
    destruct (setitem (replicate (length m) false) start true) as [vis| |];
      simpl; [|done..].
    destruct (greedy_loop_wide m Hwide (range (py_len m - 1))
                (GreedyState [start] vis 0 start) Hstart) as [-> Hcur].
    destruct (for_in _ _ _) as [st| |]; simpl; [|done..].
    by rewrite lookup2_wide by (done || by apply Hcur).
  - unfold tsp_branch_and_bound, solve_with. rewrite Hlen, length_fmap.
    destruct (setitem (replicate (length m) false) start true) as [vis| |];
      simpl; [|done..].
    rewrite backtrack_with_wide; [done..|].
    simpl. by intros cur [= <-].
Qed.

Lemma extra_columns_ignored_witness :
  Forall (λ row : list Z, (length [[0; 3; 9]; [3; 0; 9]] ≤ length row)%nat)
    [[0; 3; 9]; [3; 0; 9]] ∧
  0 ≤ 0 < py_len [[0; 3; 9]; [3; 0; 9]] ∧
  tsp_greedy [[0; 3; 9]; [3; 0; 9]] 0 =
    tsp_greedy (take (length [[0; 3; 9]; [3; 0; 9]]) <$> [[0; 3; 9]; [3; 0; 9]]) 0 ∧
  tsp_branch_and_bound [[0; 3; 9]; [3; 0; 9]] 0 =
    tsp_branch_and_bound
      (take (length [[0; 3; 9]; [3; 0; 9]]) <$> [[0; 3; 9]; [3; 0; 9]]) 0.
Proof.
  assert (Forall (λ row : list Z, (length [[0; 3; 9]; [3; 0; 9]] ≤ length row)%nat)
            [[0; 3; 9]; [3; 0; 9]]) as Hwide
    by (repeat constructor; simpl; lia).
  split; [exact Hwide|]. split; [unfold py_len; simpl; lia|].
  apply (extra_columns_ignored [[0; 3; 9]; [3; 0; 9]] 0 Hwide).
  unfold py_len. simpl. lia.
Defined.

(** ** A missing distance from the start *)

Lemma index_error_only_Raise {A : Type} (r : res A) :
  index_error_only r → (∀ a, r ≠ Ok a) → r = Raise IndexError.
Proof. destruct r as [a|[]|]; simpl; try done. intros _ H. by destruct (H a). Qed.

Lemma candidates_raises (m : matrix) (vis : list bool) (cur j : Z) (js : list Z) :
  Forall (λ j, 0 ≤ j < py_len vis) js →
  j ∈ js → vis !! Z.to_nat j = Some false →
  lookup2 m cur j = Raise IndexError →
  candidates m vis cur js = Raise IndexError.
Proof.
  intros Hjs Hj Hv Hd. induction Hjs as [|j' js Hj' _ IH]; [by inversion Hj|].
  simpl. destruct (lookup_lt_is_Some_2 vis (Z.to_nat j')) as [v Hv'];
    [unfold py_len in *; lia|].
  rewrite (getitem_nonneg _ _ v) by (done || lia). simpl.
  apply elem_of_cons in Hj as [<-|Hj].
  - rewrite Hv in Hv'. injection Hv' as <-. simpl. by rewrite Hd.
  - specialize (IH Hj). rewrite IH. destruct v; simpl; [done|].
    pose proof (lookup2_index_error_only m cur j') as Hd'.
    by destruct (lookup2 m cur j') as [d|[]|].
Qed.

Lemma for_in_raises {S : Type} (I : S → Prop) (l : list Z)
    (body : Z → S → res S) (j : Z) :
  j ∈ l →
  (∀ s, I s → body j s = Raise IndexError) →
  (∀ c s, I s → index_error_only (body c s) ∧
                ∀ s', body c s = Ok s' → I s') →
  ∀ s, I s → for_in l body s = Raise IndexError.
Proof.
  intros Hj Hraise Hbody. induction l as [|c l IH]; intros s Hs;
    [by inversion Hj|].
  simpl. destruct (decide (c = j)) as [->|Hne]; [by rewrite Hraise|].
  apply elem_of_cons in Hj as [?|Hj]; [done|].
  destruct (Hbody c s Hs) as [Honly Hok].
  destruct (body c s) as [s1|[]|]; simpl in *; try done.
  apply IH; [done|]. by apply Hok.
Qed.

(** The search from [[start]] raises when the distance from [start] to an
    unmarked location is missing. *)
Lemma backtrack_missing_distance (m : matrix) (n start j : Z) (fuel : nat)
    (vis : list bool) :
  1 < n → 0 ≤ j < n → n - 2 < Z.of_nat fuel →
  vis !! Z.to_nat j = Some false →
  lookup2 m start j = Raise IndexError →
  backtrack_with pruning_test m n start (S fuel) 0
    (SearchState [start] vis Inf []) = Raise IndexError.
Proof.
  intros Hn Hj Hfuel Hv Hd.
  change (backtrack_with pruning_test m n start (S fuel) 0
            (SearchState [start] vis Inf []))
    with (do current_city <~ getitem [start] (-1) ;;
          if py_len [start] =? n then
            do d <~ lookup2 m current_city start ;;
            if lt_distance (0 + d) Inf then
              Ok (SearchState [start] vis (Fin (0 + d)) [start])
            else Ok (SearchState [start] vis Inf [])
          else
            for_in (range n) (λ next_city s,
              do v <~ getitem (visited s) next_city ;;
              if negb v then
                do d <~ lookup2 m current_city next_city ;;
                if pruning_test (0 + d) (best_distance s) then
                  do visited1 <~ setitem (visited s) next_city true ;;
                  do s' <~ backtrack_with pruning_test m n start fuel (0 + d)
                          (SearchState (path s ++ [next_city]) visited1
                             (best_distance s) (best_path s)) ;;
                  do path2 <~ pop (path s') ;;
                  do visited2 <~ setitem (visited s') next_city false ;;
                  Ok (SearchState path2 visited2 (best_distance s') (best_path s'))
                else Ok s
              else Ok s) (SearchState [start] vis Inf [])).
  rewrite (getitem_last [start] start) by done. cbn [res_bind].
  replace (py_len [start] =? n) with false
    by (symmetry; apply Z.eqb_neq; unfold py_len; simpl; lia).
  apply (for_in_raises (λ s, path s = [start] ∧ visited s = vis) _ _ j);
    [by apply elem_of_range| | |done].
  - intros s [Hp Hvis]. rewrite Hvis, (getitem_nonneg _ _ false) by (done || lia).
    simpl. by rewrite Hd.
  - intros c s [Hp Hvis].
    pose proof (getitem_index_error_only (visited s) c) as Hg.
    destruct (getitem (visited s) c) as [v|[]|] eqn:Hgc; simpl in *; try done.
    destruct v; simpl; [split; [done | by intros s' [= <-]]|].
    pose proof (lookup2_index_error_only m start c) as Hl.
    destruct (lookup2 m start c) as [d|[]|]; simpl in *; try done.
    destruct (pruning_test _ _); [|split; [done | by intros s' [= <-]]].
    pose proof (setitem_index_error_only (visited s) c true) as Hs1.
    destruct (setitem (visited s) c true) as [vis1|[]|] eqn:Hset1;
      simpl in *; try done.
    split.
    + apply index_error_only_bind.
      { apply backtrack_with_index_error_only; simpl;
          unfold py_len in *; rewrite length_app, Hp; simpl; lia. }
      intros s2 [Hp2 Hv2]%backtrack_with_frame. simpl in Hp2, Hv2.
      rewrite Hp2, pop_snoc. simpl.
      apply index_error_only_bind; [apply setitem_index_error_only | done].
    + intros s'.
      destruct (backtrack_with pruning_test m n start fuel _ _) as [s2| |] eqn:Hs2;
        simpl; [|done..].
      pose proof Hs2 as [Hp2 Hv2]%backtrack_with_frame. simpl in Hp2, Hv2.
      rewrite Hp2, Hv2, pop_snoc. simpl.
      destruct (setitem vis1 c false) as [vis2| |] eqn:Hset2; simpl; [|done..].
      intros [= <-]. simpl. split; [done|].
      apply getitem_Ok in Hgc as [_ Hgc].
      apply setitem_Ok in Hset1 as [_ ->].
      apply setitem_Ok in Hset2 as [_ ->].
      rewrite py_len_insert, <- Hvis. by apply unmark.
Qed.

(** X14.  When the distance from the start to some other location is missing
    from the matrix, both solvers raise [IndexError], whatever the rest of
    the matrix holds. *)
Theorem missing_distance_from_start_raises (m : matrix) (start j : Z) :
  - py_len m ≤ start < py_len m →
  0 ≤ j < py_len m → j ≠ norm (py_len m) start →
  lookup2 m start j = Raise IndexError →
  tsp_greedy m start = Raise IndexError ∧
  tsp_branch_and_bound m start = Raise IndexError.
Proof.
  intros Hstart Hj Hne Hd. set (n := py_len m) in *.
  pose proof (norm_range n start Hstart) as Hns.
  set (vis := <[Z.to_nat (norm n start) := true]> (replicate (length m) false)).
  assert (setitem (replicate (length m) false) start true = Ok vis) as Hset.
  { apply setitem_Ok. unfold py_len. rewrite length_replicate. done. }
  assert (py_len vis = n) as Hlen.
  { unfold vis. rewrite py_len_insert. unfold py_len.
    by rewrite length_replicate. }
  assert (vis !! Z.to_nat j = Some false) as Hv.
  { unfold vis. rewrite list_lookup_insert_ne by lia.
    apply lookup_replicate. split; [done|]. unfold n, py_len in *. lia. }
  assert (Forall (λ c, 0 ≤ c < py_len vis) (range n)) as Hrange.
  { apply Forall_forall. intros c. rewrite Hlen. by rewrite elem_of_range. }
  split.
  - unfold tsp_greedy. rewrite Hset. cbn [res_bind]. fold n. unfold range at 1.
    rewrite seqZ_cons by lia. cbn [for_in]. unfold greedy_step at 1.
    cbn [g_visited g_current].
    rewrite (candidates_raises m vis start j); try done.
    by apply elem_of_range.
  - unfold tsp_branch_and_bound, solve_with. rewrite Hset. cbn [res_bind].
    fold n. replace (length m) with (S (pred (length m)))
      by (unfold n, py_len in *; lia).
    rewrite (backtrack_missing_distance m n start j); try done; [lia|].
    unfold n, py_len in *. lia.
Qed.

Lemma missing_distance_from_start_raises_witness :
  - py_len [[0]; [4; 0]] ≤ 0 < py_len [[0]; [4; 0]] ∧
  0 ≤ 1 < py_len [[0]; [4; 0]] ∧ 1 ≠ norm (py_len [[0]; [4; 0]]) 0 ∧
  lookup2 [[0]; [4; 0]] 0 1 = Raise IndexError ∧
  tsp_greedy [[0]; [4; 0]] 0 = Raise IndexError ∧
  tsp_branch_and_bound [[0]; [4; 0]] 0 = Raise IndexError.
Proof.
  split; [unfold py_len; simpl; lia|]. split; [unfold py_len; simpl; lia|].
  split; [by vm_compute|]. split; [reflexivity|].
  apply (missing_distance_from_start_raises [[0]; [4; 0]] 0 1).
  - unfold py_len. simpl. lia.
  - unfold py_len. simpl. lia.
  - by vm_compute.
  - reflexivity.
Defined.
